(** * RFM customer segmentation: the scoring pipeline of [rfm_analysis_app.py]

    The script reads a purchase log, derives Recency, Frequency and
    MonetaryValue, bins each of them into a score, sums the scores and
    labels every row twice (a tertile "Value Segment" and a fixed-threshold
    "RFM Customer Segments").  This file embeds lines 44-100 of the script
    and the aggregates behind its charts (lines 106, 146 and 190), and
    proves properties of that embedding.

    Modelling conventions.
    - A DataFrame is the list of its rows, in index order.  Every frame the
      script builds carries the default RangeIndex, so index alignment of a
      column assignment is positional.
    - An empty CSV cell is [None] (pandas NaN / NaT).  Cells that do not
      parse at all (a malformed date, a non numeric amount) make the script
      fail before line 52 and are not tables of this model.
    - Numbers are exact rationals [Q]; instants are integers in nanoseconds,
      the resolution of pandas timestamps.  The whole numbers of the script
      (Recency, Frequency, the scores, RFM_Score) are computed exactly by
      the script as well.  Its float64 arithmetic rounds where [Q] does
      not: the sums of line 57, and the levels and edges numpy interpolates
      for [cut] and [qcut].  A sum of the model is the script's when the
      amounts are exactly summable ([exactly_summable]); an edge of the
      model can differ from the script's in the last place, which matters
      for a value that lies on the edge and for two edges that all but
      coincide.  The properties that depend on the value of a sum or of an
      edge are therefore stated where the rounding does not matter: on
      exactly summable amounts, on series of whole numbers
      ([whole_numbers]), and by strict comparison with an edge.
    - The pandas routines the script calls ([groupby], [merge], [cut],
      [qcut], [nunique], [astype]) are written out below following the
      pandas reference implementation, restricted to the keyword arguments
      the script uses. *)

From Stdlib Require Import List ZArith QArith Qround Qabs String Ascii Bool Arith Lia
  Lqa Permutation Sorted.
Import ListNotations.

Open Scope Z_scope.
Open Scope string_scope.

(** ** Exceptions *)

Inductive exn : Type :=
| ValueError (msg : string).

Inductive result (A : Type) : Type :=
| Ok (a : A)
| Raise (e : exn).

Arguments Ok {A} a.
Arguments Raise {A} e.

Definition bind {A B : Type} (m : result A) (k : A -> result B) : result B :=
  match m with
  | Ok a => k a
  | Raise e => Raise e
  end.

Notation "x <- m ;; k" := (bind m (fun x => k))
  (at level 61, m at next level, right associativity).

(** ** Series of numbers with missing entries *)

Definition series : Type := list (option Q).

Fixpoint dropna {A : Type} (l : list (option A)) : list A :=
  match l with
  | [] => []
  | Some a :: t => a :: dropna t
  | None :: t => dropna t
  end.

Definition Qlt_bool (x y : Q) : bool := negb (Qle_bool y x).

Definition memQ (x : Q) (l : list Q) : bool := existsb (Qeq_bool x) l.

(** [algos.unique]: the distinct values, compared as numbers. *)
Fixpoint uniqueQ (l : list Q) : list Q :=
  match l with
  | [] => []
  | x :: t => if memQ x t then uniqueQ t else x :: uniqueQ t
  end.

(** [Series.nunique()]: number of distinct values, NaN excluded. *)
Definition nunique (s : series) : nat := List.length (uniqueQ (dropna s)).

Fixpoint insertQ (x : Q) (l : list Q) : list Q :=
  match l with
  | [] => [x]
  | y :: t => if Qle_bool x y then x :: l else y :: insertQ x t
  end.

Fixpoint sortQ (l : list Q) : list Q :=
  match l with
  | [] => []
  | x :: t => insertQ x (sortQ t)
  end.

Definition minQ (x0 : Q) (l : list Q) : Q :=
  fold_left (fun m x => if Qlt_bool x m then x else m) l x0.

Definition maxQ (x0 : Q) (l : list Q) : Q :=
  fold_left (fun m x => if Qlt_bool m x then x else m) l x0.

(** [numpy.linspace a b num], endpoint included, in exact arithmetic; numpy
    rounds every point but the two ends to float64. *)
Definition linspace (a b : Q) (num : nat) : list Q :=
  map (fun i => (a + inject_Z (Z.of_nat i) * ((b - a) / inject_Z (Z.of_nat num - 1)))%Q)
      (seq 0 num).

(** [Series.quantile p] with the default linear interpolation, on a
    non-empty list of present values: position [(n-1) * p] in the sorted
    values, interpolated between its two neighbours.  The interpolation is
    exact here; numpy rounds the level, the position and the result to
    float64, so that its quantile lies between the same two neighbours (or
    next to them, when the position is a whole number) but can differ from
    this one in the last place. *)
Definition quantile (vals : list Q) (p : Q) : Q :=
  let v := sortQ vals in
  let h := (inject_Z (Z.of_nat (List.length v) - 1) * p)%Q in
  let lo := Z.to_nat (Qfloor h) in
  let frac := (h - inject_Z (Qfloor h))%Q in
  let a := nth lo v 0%Q in
  let b := nth (S lo) v a in
  (a + (b - a) * frac)%Q.

(** [Index.searchsorted x side='left'] on non-decreasing edges: the first
    position whose edge is not below [x]. *)
Fixpoint searchsorted_left (bins : list Q) (x : Q) : nat :=
  match bins with
  | [] => O
  | b :: t => if Qlt_bool b x then S (searchsorted_left t x) else O
  end.

(** ** Binning: [_bins_to_cuts], [pd.cut] with an integer bin count,
    [pd.qcut] *)

Section Binning.

Variable L : Type.
Hypothesis L_eq_dec : forall x y : L, {x = y} + {x <> y}.

Definition bin_id (bins : list Q) (include_lowest : bool) (x : Q) : option nat :=
  let i := if include_lowest && Qeq_bool x (hd 0%Q bins)
           then 1%nat else searchsorted_left bins x in
  if (i =? List.length bins)%nat || (i =? 0)%nat then None else Some i.

Definition check_labels (labels : list L) (nbins_edges : nat) : result unit :=
  if negb (List.length (nodup L_eq_dec labels) =? List.length labels)%nat
  then Raise (ValueError "labels must be unique if ordered=True; pass ordered=False for duplicate labels")
  else if negb (List.length labels =? nbins_edges - 1)%nat
  then Raise (ValueError "Bin labels must be one fewer than the number of bin edges")
  else Ok tt.

Definition take_label (labels : list L) (id : option nat) : option L :=
  match id with
  | None => None
  | Some i => nth_error labels (i - 1)
  end.

Definition bins_to_cuts (s : series) (bins : list Q) (labels : list L)
    (include_lowest : bool) : result (list (option L)) :=
  if (List.length (uniqueQ bins) <? List.length bins)%nat
     && negb (List.length bins =? 2)%nat
  then Raise (ValueError "Bin edges must be unique")
  else
    let ids := map (fun x => match x with
                             | None => None
                             | Some v => bin_id bins include_lowest v
                             end) s in
    _ <- check_labels labels (List.length bins) ;;
    Ok (map (take_label labels) ids).

(** The end point adjustment of [_nbins_to_bins] for a constant series. *)
Definition widen (m : Q) : Q :=
  if Qeq_bool m 0 then (1 # 1000)%Q else ((1 # 1000) * Qabs m)%Q.

Definition nbins_to_bins (mn mx : Q) (nbins : nat) : list Q :=
  if Qeq_bool mn mx
  then linspace (mn - widen mn) (mx + widen mx) (S nbins)
  else match linspace mn mx (S nbins) with
       | [] => []
       | b0 :: rest => (b0 - (mx - mn) * (1 # 1000))%Q :: rest
       end.

(** [pd.cut(s, bins=nbins, labels=labels)]. *)
Definition cut (s : series) (nbins : nat) (labels : list L)
    : result (list (option L)) :=
  if (nbins <? 1)%nat
  then Raise (ValueError "`bins` should be a positive integer.")
  else if (List.length s =? 0)%nat
  then Raise (ValueError "Cannot cut empty array")
  else match dropna s with
       | [] =>
           (* min and max are NaN, and so is every edge: the edges are
              all one and the same value, no cell falls in a bin *)
           bins_to_cuts s (repeat 0%Q (S nbins)) labels false
       | v0 :: rest =>
           let mn := minQ v0 rest in
           let mx := maxQ v0 rest in
           bins_to_cuts s (nbins_to_bins mn mx nbins) labels false
       end.

(** [pd.qcut(s, q=q, labels=labels)]. *)
Definition qcut (s : series) (q : nat) (labels : list L)
    : result (list (option L)) :=
  match dropna s with
  | [] =>
      (* every quantile of an empty series is NaN: again one repeated
         edge *)
      bins_to_cuts s (repeat 0%Q (S q)) labels true
  | vals => bins_to_cuts s (map (quantile vals) (linspace 0 1 (S q))) labels true
  end.

End Binning.

Arguments cut {L} L_eq_dec s nbins labels.
Arguments qcut {L} L_eq_dec s q labels.
Arguments bins_to_cuts {L} L_eq_dec s bins labels include_lowest.
Arguments take_label {L} labels id.
Arguments check_labels {L} L_eq_dec labels nbins_edges.

(** [Series.astype(int)] on the categorical result: a NaN cannot be cast. *)
Fixpoint astype_int (l : list (option Z)) : result (list Z) :=
  match l with
  | [] => Ok []
  | None :: _ => Raise (ValueError "Cannot convert float NaN to integer")
  | Some z :: t => r <- astype_int t ;; Ok (z :: r)
  end.

(** ** The scoring helper (lines 70-80) *)

(** The body of the [try] block. *)
Definition score_attempt (s : series) (score_labels : list Z) (q : nat)
    : result (list Z) :=
  let n_quantiles := Nat.min q (nunique s) in
  binned <- (if (n_quantiles <? q)%nat
             then cut Z.eq_dec s n_quantiles (firstn n_quantiles score_labels)
             else qcut Z.eq_dec s n_quantiles (firstn n_quantiles score_labels)) ;;
  astype_int binned.

Definition create_rfm_score (s : series) (score_labels : list Z) (q : nat) : list Z :=
  match score_attempt s score_labels q with
  | Ok scores => scores
  | Raise (ValueError _) => repeat 0 (List.length s)
  end.

(** ** Tables *)

Record Transaction : Type := mkTransaction {
  CustomerID : option string;
  PurchaseDate : option Z;
  OrderID : option string;
  TransactionAmount : option Q
}.

Record Metrics : Type := mkMetrics {
  txn : Transaction;
  Recency : option Z;
  Frequency : option Z;
  MonetaryValue : option Q
}.

Record Scored : Type := mkScored {
  metrics : Metrics;
  RecencyScore : Z;
  FrequencyScore : Z;
  MonetaryScore : Z;
  RFM_Score : Z
}.

Record Segmented : Type := mkSegmented {
  scored : Scored;
  Value_Segment : option string;
  RFM_Customer_Segments : string
}.

(** ** Recency, Frequency and MonetaryValue (lines 48-62) *)

Definition ns_per_day : Z := 86400000000000.

(** [(now - PurchaseDate).dt.days]: whole days, rounded down; NaT gives NaN. *)
Definition recency (now : Z) (t : Transaction) : option Z :=
  option_map (fun d => (now - d) / ns_per_day) (PurchaseDate t).

Fixpoint insert_key (k : string) (l : list string) : list string :=
  match l with
  | [] => [k]
  | k' :: t => if String.leb k k' then k :: l else k' :: insert_key k t
  end.

Fixpoint sort_keys (l : list string) : list string :=
  match l with
  | [] => []
  | k :: t => insert_key k (sort_keys t)
  end.

(** The group keys of [groupby('CustomerID')]: the distinct present
    identifiers, sorted; rows without an identifier belong to no group. *)
Definition group_keys (data : list Transaction) : list string :=
  sort_keys (nodup string_dec (dropna (map CustomerID data))).

Definition in_group (c : string) (t : Transaction) : bool :=
  match CustomerID t with
  | Some c' => String.eqb c c'
  | None => false
  end.

Definition group (c : string) (data : list Transaction) : list Transaction :=
  filter (in_group c) data.

(** [count()] counts the non-missing cells. *)
Definition count_notna {A : Type} (l : list (option A)) : Z :=
  Z.of_nat (List.length (dropna l)).

(** [sum()] skips missing cells.  The sum is exact here; the script adds
    in float64, or in int64 for a column of whole amounts, and gets this sum
    when the amounts are exactly summable ([exactly_summable] below). *)
Definition sumQ (l : list Q) : Q := fold_left Qplus l 0%Q.

Definition frequency_data (data : list Transaction) : list (string * Z) :=
  map (fun c => (c, count_notna (map OrderID (group c data)))) (group_keys data).

Definition monetary_data (data : list Transaction) : list (string * Q) :=
  map (fun c => (c, sumQ (dropna (map TransactionAmount (group c data)))))
      (group_keys data).

Definition key_matches {B : Type} (k : option string) (kv : string * B) : bool :=
  match k with
  | Some c => String.eqb c (fst kv)
  | None => false
  end.

(** [left.merge(right, on='CustomerID', how='left')]: each left row, in
    order, once per matching right row, or once with NaN when none matches. *)
Definition merge_left {A B : Type} (key : A -> option string) (left : list A)
    (right : list (string * B)) : list (A * option B) :=
  flat_map (fun r =>
              match filter (key_matches (key r)) right with
              | [] => [(r, None)]
              | ms => map (fun kv => (r, Some (snd kv))) ms
              end) left.

Definition data_merged (now : Z) (data : list Transaction) : list Metrics :=
  let d0 := map (fun t => (t, recency now t)) data in
  let d1 := merge_left (fun r => CustomerID (fst r)) d0 (frequency_data data) in
  let d2 := merge_left (fun r => CustomerID (fst (fst r))) d1 (monetary_data data) in
  map (fun r => mkMetrics (fst (fst (fst r))) (snd (fst (fst r))) (snd (fst r)) (snd r)) d2.

(** ** Scores (lines 64-88) *)

Definition recency_scores : list Z := [5; 4; 3; 2; 1].
Definition frequency_scores : list Z := [1; 2; 3; 4; 5].
Definition monetary_scores : list Z := [1; 2; 3; 4; 5].

Definition int_series (l : list (option Z)) : series := map (option_map inject_Z) l.

Definition recency_series (rows : list Metrics) : series := int_series (map Recency rows).
Definition frequency_series (rows : list Metrics) : series := int_series (map Frequency rows).
Definition monetary_series (rows : list Metrics) : series := map MonetaryValue rows.

Definition add_scores (rows : list Metrics) (rs fs ms : list Z) : list Scored :=
  map (fun x => let '(m, (r, (f, mo))) := x in mkScored m r f mo (r + f + mo))
      (combine rows (combine rs (combine fs ms))).

Definition data_scored (now : Z) (data : list Transaction) : list Scored :=
  let rows := data_merged now data in
  add_scores rows
    (create_rfm_score (recency_series rows) recency_scores 5)
    (create_rfm_score (frequency_series rows) frequency_scores 5)
    (create_rfm_score (monetary_series rows) monetary_scores 5).

(** ** Segments (lines 90-100) *)

Definition segment_labels : list string := ["Low-Value"; "Mid-Value"; "High-Value"].

(** [data.loc[mask, col] = v] *)
Fixpoint loc_set (mask : Z -> bool) (v : string) (scores : list Z) (col : list string)
    : list string :=
  match scores, col with
  | s :: scores', old :: col' =>
      (if mask s then v else old) :: loc_set mask v scores' col'
  | _, _ => col
  end.

(** Lines 96-100, in the order they run: the mask and the label of each
    assignment. *)
Definition segment_rules : list ((Z -> bool) * string) :=
  [ (fun s => (9 <=? s)%Z, "Champions");
    (fun s => ((6 <=? s) && (s <? 9))%Z, "Potential Loyalists");
    (fun s => ((5 <=? s) && (s <? 6))%Z, "At Risk Customers");
    (fun s => ((4 <=? s) && (s <? 5))%Z, "Can't Lose");
    (fun s => (s <? 4)%Z, "Lost") ].

Definition customer_segments (scores : list Z) : list string :=
  fold_left (fun col rule => loc_set (fst rule) (snd rule) scores col)
            segment_rules
            (map (fun _ => "") scores).

Definition rfm_series (rows : list Scored) : series :=
  map (fun r => Some (inject_Z (RFM_Score r))) rows.

Definition value_segments (rows : list Scored) : result (list (option string)) :=
  qcut string_dec (rfm_series rows) 3 segment_labels.

Definition add_segments (rows : list Scored) (vs : list (option string))
    (cs : list string) : list Segmented :=
  map (fun x => let '(r, (v, c)) := x in mkSegmented r v c)
      (combine rows (combine vs cs)).

(** Lines 44-100 for an uploaded table, at the instant [now] read on line 52.
    The [qcut] of line 92 sits outside any [try]: its exception ends the run. *)
Definition rfm_analysis (now : Z) (data : list Transaction) : result (list Segmented) :=
  let rows := data_scored now data in
  vs <- value_segments rows ;;
  Ok (add_segments rows vs (customer_segments (map RFM_Score rows))).

(** ** Sample tables *)

Definition day (d : Z) : option Z := Some (d * ns_per_day).

Definition row (c : string) (d : Z) (o : string) (a : Q) : Transaction :=
  mkTransaction (Some c) (day d) (Some o) (Some a).

(** The table shown by the script itself (lines 22-28).  Here and below a
    date is its day number counted from 2023-01-01 (day 0), so that day 129
    is 2023-05-10. *)
Definition example_data : list Transaction :=
  [ row "C001" 129 "O001" 150.75%Q;
    row "C002" 165 "O002" 200.00%Q;
    row "C001" 181 "O003" 350.00%Q;
    row "C003" 114 "O004" 125.50%Q;
    row "C002" 139 "O005" 180.00%Q;
    row "C004" 88 "O006" 275.50%Q;
    row "C001" 195 "O007" 120.00%Q;
    row "C003" 221 "O008" 300.00%Q;
    row "C005" 243 "O009" 95.00%Q ].

(** Ten in the morning of day 1036. *)
Definition example_now : Z := 1036 * ns_per_day + 36000000000000.

(** Two orders of one customer, the second with an empty OrderID cell. *)
Definition missing_order_data : list Transaction :=
  [ row "C001" 10 "O001" 20.00%Q;
    mkTransaction (Some "C001") (day 11) None (Some 30.00%Q) ].

(** Two rows of one customer that carry the same OrderID. *)
Definition repeated_order_data : list Transaction :=
  [ row "C001" 10 "O001" 20.00%Q;
    row "C001" 11 "O001" 30.00%Q ].

(** One customer, six purchases from 2023-04-06 to 2023-04-10, two of them
    on the last day: Recency is 1, 1, 2, 3, 4, 5 at [skew_now]. *)
Definition skew_data : list Transaction :=
  [ row "C001" 99 "O001" 10.00%Q;
    row "C001" 99 "O002" 10.00%Q;
    row "C001" 98 "O003" 10.00%Q;
    row "C001" 97 "O004" 10.00%Q;
    row "C001" 96 "O005" 10.00%Q;
    row "C001" 95 "O006" 10.00%Q ].

(** Noon of day 100, 2023-04-11. *)
Definition skew_now : Z := 100 * ns_per_day + 43200000000000.

(** One customer, six purchases over three consecutive days. *)
Definition tied_data : list Transaction :=
  [ row "C001" 99 "O001" 10.00%Q;
    row "C001" 98 "O002" 10.00%Q;
    row "C001" 98 "O003" 10.00%Q;
    row "C001" 98 "O004" 10.00%Q;
    row "C001" 97 "O005" 10.00%Q;
    row "C001" 97 "O006" 10.00%Q ].

(** A complete row and a row whose CustomerID and PurchaseDate cells are
    empty. *)
Definition blank_cells_data : list Transaction :=
  [ row "C001" 99 "O001" 20.00%Q;
    mkTransaction None None (Some "O002") (Some 30.00%Q) ].

(** Three distinct values, two of them close together. *)
Definition gap_series : series := [Some 1%Q; Some 2%Q; Some 100%Q].

(** ** Notions the specification uses *)

(** The band table of the specification, first match wins. *)
Definition band_table (s : Z) : option string :=
  if (9 <=? s)%Z then Some "Champions"
  else if ((6 <=? s) && (s <? 9))%Z then Some "Potential Loyalists"
  else if ((5 <=? s) && (s <? 6))%Z then Some "At Risk Customers"
  else if ((4 <=? s) && (s <? 5))%Z then Some "Can't Lose"
  else if (s <? 4)%Z then Some "Lost"
  else None.

Definition customer_segment_labels : list string :=
  ["Champions"; "Potential Loyalists"; "At Risk Customers"; "Can't Lose"; "Lost"].

(** Number of distinct OrderID values among the rows of customer [c]. *)
Definition distinct_orders (c : string) (data : list Transaction) : Z :=
  Z.of_nat (List.length (nodup string_dec (dropna (map OrderID (group c data))))).

(** Number of distinct values of a score column. *)
Definition distinct_scores (col : list Z) : nat := List.length (nodup Z.eq_dec col).

(** Position of a value segment in the ascending order Low < Mid < High. *)
Definition segment_rank (l : string) : nat :=
  if String.eqb l "Low-Value" then 0
  else if String.eqb l "Mid-Value" then 1
  else 2.

Definition population (l : string) (out : list Segmented) : nat :=
  List.length (filter (fun r => match Value_Segment r with
                                | Some l' => String.eqb l l'
                                | None => false
                                end) out).

(** Buckets of equal population, up to the remainder of dividing the row
    count by three. *)
Definition equal_population (out : list Segmented) : Prop :=
  forall l1 l2, In l1 segment_labels -> In l2 segment_labels ->
    (population l1 out <= population l2 out + 1)%nat.

(** The interior edges of the tertile split: the 1/3 and 2/3 quantiles of
    the RFM_Score column. *)
Definition tertile (k : Z) (rows : list Scored) : Q :=
  quantile (dropna (rfm_series rows)) (k # 3).

(** The band table as the five conditions of the specification. *)
Definition in_band (s : Z) (l : string) : Prop :=
  (9 <= s -> l = "Champions")
  /\ (6 <= s < 9 -> l = "Potential Loyalists")
  /\ (5 <= s < 6 -> l = "At Risk Customers")
  /\ (4 <= s < 5 -> l = "Can't Lose")
  /\ (s < 4 -> l = "Lost").

(** How many of the five assignments select a score. *)
Definition bands_matching (s : Z) : nat :=
  List.length (filter (fun rule : (Z -> bool) * string => fst rule s) segment_rules).

(** RFM_Score as the specification has it: the sum of the three scores,
    within 3..15 when each of them is within 1..5. *)
Definition sum_of_scores (r : Scored) : Prop :=
  RFM_Score r = RecencyScore r + FrequencyScore r + MonetaryScore r
  /\ (1 <= RecencyScore r <= 5 ->
      1 <= FrequencyScore r <= 5 ->
      1 <= MonetaryScore r <= 5 ->
      3 <= RFM_Score r <= 15).

(** ** Auxiliary notions for the proofs *)

(** What a left merge with a table of per-key aggregates attaches to a
    row. *)
Definition attached {A B : Type} (key : A -> option string) (agg : string -> B)
    (keys : list string) (r : A) : option B :=
  match key r with
  | Some c => if in_dec string_dec c keys then Some (agg c) else None
  | None => None
  end.

(** The orders counted for a customer and the amount summed for it. *)
Definition order_count (data : list Transaction) (c : string) : Z :=
  count_notna (map OrderID (group c data)).

Definition amount_sum (data : list Transaction) (c : string) : Q :=
  sumQ (dropna (map TransactionAmount (group c data))).

Definition metrics_of (now : Z) (data : list Transaction) (t : Transaction) : Metrics :=
  mkMetrics t (recency now t)
            (option_map (order_count data) (CustomerID t))
            (option_map (amount_sum data) (CustomerID t)).

(** The label [_bins_to_cuts] gives to one cell. *)
Definition label_of {L : Type} (bins : list Q) (labels : list L)
    (include_lowest : bool) (x : option Q) : option L :=
  match x with
  | None => None
  | Some v => take_label labels (bin_id bins include_lowest v)
  end.

(** The label a score ends up with after the assignments of
    [segment_rules], starting from the empty string. *)
Definition relabel (rules : list ((Z -> bool) * string)) (init : string) (s : Z)
    : string :=
  fold_left (fun (old : string) (rule : (Z -> bool) * string) =>
               if fst rule s then snd rule else old) rules init.

Definition segment_of (s : Z) : string := relabel segment_rules "" s.

(** The four edges of the tertile split of line 92. *)
Definition tertile_edges (rows : list Scored) : list Q :=
  map (quantile (dropna (rfm_series rows))) (linspace 0%Q 1%Q 4).

Definition value_segment_of (rows : list Scored) (r : Scored) : option string :=
  label_of (tertile_edges rows) segment_labels true (Some (inject_Z (RFM_Score r))).

(** A tertile split in the words of the specification: at most the 1/3
    quantile is Low, at most the 2/3 quantile is Mid, the rest is High. *)
Definition tertile_label (rows : list Scored) (score : Z) : string :=
  if Qle_bool (inject_Z score) (tertile 1 rows) then "Low-Value"
  else if Qle_bool (inject_Z score) (tertile 2 rows) then "Mid-Value"
  else "High-Value".

(** The three metrics, with the series, the labels and the score column of
    each (lines 83-85). *)
Inductive metric : Type := RecencyMetric | FrequencyMetric | MonetaryMetric.

Definition metric_series (k : metric) (rows : list Metrics) : series :=
  match k with
  | RecencyMetric => recency_series rows
  | FrequencyMetric => frequency_series rows
  | MonetaryMetric => monetary_series rows
  end.

Definition metric_labels (k : metric) : list Z :=
  match k with
  | RecencyMetric => recency_scores
  | FrequencyMetric => frequency_scores
  | MonetaryMetric => monetary_scores
  end.

Definition metric_score (k : metric) (r : Scored) : Z :=
  match k with
  | RecencyMetric => RecencyScore r
  | FrequencyMetric => FrequencyScore r
  | MonetaryMetric => MonetaryScore r
  end.

(** ** The aggregates behind the charts (lines 105-190) *)

(** Line 146: the rows labelled Champions. *)
Definition champions_segment (out : list Segmented) : list Segmented :=
  filter (fun r => String.eqb (RFM_Customer_Segments r) "Champions") out.

(** Two customers, three purchases on three consecutive days. *)
Definition mixed_data : list Transaction :=
  [ row "A" 97 "O001" 10.00%Q;
    row "B" 98 "O002" 20.00%Q;
    row "B" 99 "O003" 30.00%Q ].

(** The cell of a metric's series that belongs to a row. *)
Definition metric_cell (k : metric) (m : Metrics) : option Q :=
  match k with
  | RecencyMetric => option_map inject_Z (Recency m)
  | FrequencyMetric => option_map inject_Z (Frequency m)
  | MonetaryMetric => MonetaryValue m
  end.

(** The score read off a binned cell, 0 standing for a cell without one. *)
Definition score_of_cell (bins : list Q) (labels : list Z) (include_lowest : bool)
    (x : option Q) : Z :=
  match label_of bins labels include_lowest x with
  | Some z => z
  | None => 0
  end.

(** A row of blanks, the default of positional look-ups in the examples. *)
Definition blank_scored : Scored :=
  mkScored (mkMetrics (mkTransaction None None None None) None None None) 0 0 0 0.

(** The outer edges of the tertile split: the 0 and the 1 quantile of the
    RFM_Score column, that is its smallest and its largest value. *)
Definition lowest_edge (rows : list Scored) : Q :=
  quantile (dropna (rfm_series rows)) (0 # 3).

Definition highest_edge (rows : list Scored) : Q :=
  quantile (dropna (rfm_series rows)) (3 # 3).

(** Line 106: [value_counts()] of the categorical Value Segment column: one
    row per category, also for a category no row carries, a missing label
    counted nowhere, the largest count first; categories with the same
    count stay in category order. *)
Definition count_label (l : string) (col : list (option string)) : nat :=
  List.length (filter (fun c => match c with
                                | Some l' => String.eqb l l'
                                | None => false
                                end) col).

Fixpoint insert_count (x : string * nat) (l : list (string * nat))
    : list (string * nat) :=
  match l with
  | [] => [x]
  | y :: t => if (snd y <=? snd x)%nat then x :: l else y :: insert_count x t
  end.

Definition value_counts (categories : list string) (col : list (option string))
    : list (string * nat) :=
  fold_right insert_count [] (map (fun l => (l, count_label l col)) categories).

Definition segment_counts (out : list Segmented) : list (string * nat) :=
  value_counts segment_labels (map Value_Segment out).

(** Line 190: [groupby('RFM Customer Segments')[...].mean()]: one row per
    segment that occurs, sorted by its name, with the mean of each score
    over the rows of the segment. *)
Record SegmentMeans : Type := mkSegmentMeans {
  segment : string;
  mean_RecencyScore : Q;
  mean_FrequencyScore : Q;
  mean_MonetaryScore : Q
}.

Definition sumZ (l : list Z) : Z := fold_right Z.add 0 l.

Definition meanZ (l : list Z) : Q :=
  (inject_Z (sumZ l) / inject_Z (Z.of_nat (List.length l)))%Q.

Definition segment_rows (k : string) (out : list Segmented) : list Segmented :=
  filter (fun r => String.eqb k (RFM_Customer_Segments r)) out.

Definition segment_scores (out : list Segmented) : list SegmentMeans :=
  map (fun k =>
         let g := segment_rows k out in
         mkSegmentMeans k
           (meanZ (map (fun r => RecencyScore (scored r)) g))
           (meanZ (map (fun r => FrequencyScore (scored r)) g))
           (meanZ (map (fun r => MonetaryScore (scored r)) g)))
      (sort_keys (nodup string_dec (map RFM_Customer_Segments out))).

(** Where the mean RFM_Score of a segment can lie. *)
Definition mean_in_band (l : string) (x : Q) : Prop :=
  (l = "Champions" -> (9 <= x)%Q /\ (x <= 15)%Q)
  /\ (l = "Potential Loyalists" -> (6 <= x)%Q /\ (x <= 8)%Q)
  /\ (l = "At Risk Customers" -> (x == 5)%Q)
  /\ (l = "Can't Lose" -> (x == 4)%Q)
  /\ (l = "Lost" -> (0 <= x)%Q /\ (x <= 3)%Q).

(** The rows that carry a CustomerID: the rows [groupby('CustomerID')]
    puts in some group. *)
Definition with_customer (data : list Transaction) : list Transaction :=
  filter (fun t => match CustomerID t with Some _ => true | None => false end) data.

(** The edges of [pd.qcut(s, q)]: the quantiles of the present values at
    the levels 0, 1/q, ..., 1. *)
Definition quantile_edges (vals : list Q) (q : nat) : list Q :=
  map (quantile vals) (linspace 0 1 (S q)).

(** Every edge below the next one. *)
Fixpoint strictly_increasing (l : list Q) : bool :=
  match l with
  | x :: (y :: _) as t => Qlt_bool x y && strictly_increasing t
  | _ => true
  end.

(** ** Where the script's arithmetic is exact *)

(** Amounts whose float64 sum is exact in whatever order they are added:
    every amount is a multiple of [2^-k], and the absolute values add up to
    at most [2^53] such units, so that every partial sum is a float64 (and
    an int64, for a column of whole amounts).  With [k = 2] these are
    amounts in quarters of a unit. *)
Definition multiple_of_unit (k : nat) (x : Q) : bool :=
  ((Qnum x * 2 ^ Z.of_nat k) mod Zpos (Qden x) =? 0)%Z.

Definition units (k : nat) (x : Q) : Z :=
  Z.abs (Qnum x * 2 ^ Z.of_nat k / Zpos (Qden x)).

Definition exactly_summable (k : nat) (l : list Q) : bool :=
  (k <=? 1022)%nat
  && forallb (multiple_of_unit k) l
  && (sumZ (map (units k) l) <=? 2 ^ 53)%Z.

(** A series of whole numbers of moderate size, as the Recency and the
    Frequency column are.  Two different edges of such a series are far
    apart compared with the rounding of float64. *)
Definition whole_numbers (s : series) : Prop :=
  forall x, In (Some x) s ->
            exists z : Z, (x == inject_Z z)%Q /\ Z.abs z <= 2 ^ 31.

(** * Properties *)

(** ** Lists *)

Lemma map_fst_combine {A B : Type} (l : list A) (l' : list B) :
  (List.length l <= List.length l')%nat -> map fst (combine l l') = l.
Proof.
  revert l'; induction l as [|a l IH]; intros [|b l'] H; simpl in *;
    try reflexivity; try lia.
  f_equal. apply IH. lia.
Qed.


Lemma dropna_In {A : Type} (l : list (option A)) (a : A) :
  In a (dropna l) <-> In (Some a) l.
Proof.
  induction l as [|[b|] l IH]; simpl.
  - tauto.
  - rewrite IH. split; intros [H|H]; auto; left; congruence.
  - rewrite IH. split; [auto|]. intros [H|H]; [discriminate|auto].
Qed.

(** ** Group keys *)

Lemma insert_key_perm (k : string) (l : list string) :
  Permutation (insert_key k l) (k :: l).
Proof.
  induction l as [|k' l IH]; simpl.
  - apply Permutation_refl.
  - destruct (String.leb k k').
    + apply Permutation_refl.
    + apply perm_trans with (k' :: k :: l).
      * apply perm_skip, IH.
      * apply perm_swap.
Qed.

Lemma sort_keys_perm (l : list string) : Permutation (sort_keys l) l.
Proof.
  induction l as [|k l IH]; simpl.
  - apply perm_nil.
  - apply perm_trans with (k :: sort_keys l).
    + apply insert_key_perm.
    + apply perm_skip, IH.
Qed.

Lemma group_keys_NoDup (data : list Transaction) : NoDup (group_keys data).
Proof.
  unfold group_keys.
  apply Permutation_NoDup with (l := nodup string_dec (dropna (map CustomerID data))).
  - apply Permutation_sym, sort_keys_perm.
  - apply NoDup_nodup.
Qed.

Lemma group_keys_In (data : list Transaction) (c : string) :
  In c (group_keys data) <-> exists t, In t data /\ CustomerID t = Some c.
Proof.
  unfold group_keys. split.
  - intros H. apply (Permutation_in _ (sort_keys_perm _)) in H.
    apply nodup_In, dropna_In, in_map_iff in H.
    destruct H as [t [H1 H2]]. exists t; auto.
  - intros [t [H1 H2]].
    apply (Permutation_in _ (Permutation_sym (sort_keys_perm _))).
    apply nodup_In, dropna_In, in_map_iff. exists t; auto.
Qed.

(** ** The left merge of a per-key aggregate *)

Section MergeAggregate.

Context {A B : Type}.
Variable key : A -> option string.
Variable agg : string -> B.

Lemma matches_absent (c : string) (keys : list string) :
  ~ In c keys ->
  filter (key_matches (Some c)) (map (fun k => (k, agg k)) keys) = [].
Proof.
  induction keys as [|k keys IH]; simpl; intros H; [reflexivity|].
  destruct (String.eqb_spec c k) as [->|Hne].
  - exfalso; apply H; auto.
  - apply IH. intros Hin; apply H; auto.
Qed.

Lemma matches_unique (c : string) (keys : list string) :
  NoDup keys -> In c keys ->
  filter (key_matches (Some c)) (map (fun k => (k, agg k)) keys) = [(c, agg c)].
Proof.
  induction 1 as [|k keys Hk Hnd IH]; simpl; intros Hin; [contradiction|].
  destruct (String.eqb_spec c k) as [->|Hne].
  - f_equal. apply matches_absent; assumption.
  - destruct Hin as [->|Hin]; [congruence|]. apply IH; assumption.
Qed.

Lemma matches_none (keys : list string) :
  filter (key_matches None) (map (fun k => (k, agg k)) keys) = [].
Proof. induction keys; simpl; auto. Qed.

Lemma merge_left_aggregate (keys : list string) (left : list A) :
  NoDup keys ->
  merge_left key left (map (fun k => (k, agg k)) keys)
  = map (fun r => (r, attached key agg keys r)) left.
Proof.
  intros Hnd. unfold merge_left.
  match goal with |- flat_map ?g _ = _ => set (f := g) end.
  assert (Hrow : forall r, f r = [(r, attached key agg keys r)]).
  { intros r. subst f. cbv beta. unfold attached.
    destruct (key r) as [c|].
    - destruct (in_dec string_dec c keys) as [Hin|Hout].
      + rewrite (matches_unique c keys Hnd Hin). reflexivity.
      + rewrite (matches_absent c keys Hout). reflexivity.
    - rewrite matches_none. reflexivity. }
  clearbody f.
  induction left as [|r left IH]; [reflexivity|].
  simpl. rewrite IH, Hrow. reflexivity.
Qed.

End MergeAggregate.

Lemma data_merged_rows (now : Z) (data : list Transaction) :
  data_merged now data = map (metrics_of now data) data.
Proof.
  unfold data_merged, frequency_data, monetary_data.
  rewrite (merge_left_aggregate _ (fun c => count_notna (map OrderID (group c data))))
    by apply group_keys_NoDup.
  rewrite (merge_left_aggregate _
             (fun c => sumQ (dropna (map TransactionAmount (group c data)))))
    by apply group_keys_NoDup.
  rewrite !map_map. apply map_ext_in. intros t Ht. simpl.
  unfold metrics_of, attached. simpl.
  destruct (CustomerID t) as [c|] eqn:Hc; simpl; [|reflexivity].
  destruct (in_dec string_dec c (group_keys data)) as [Hin|Hout]; [reflexivity|].
  exfalso. apply Hout, group_keys_In. exists t; auto.
Qed.

Lemma data_merged_length (now : Z) (data : list Transaction) :
  List.length (data_merged now data) = List.length data.
Proof. rewrite data_merged_rows. apply length_map. Qed.

(** ** Binning *)

Section BinningFacts.

Context {L : Type}.
Variable L_eq_dec : forall x y : L, {x = y} + {x <> y}.

Lemma bins_to_cuts_ok (s : series) (bins : list Q) (labels : list L)
    (il : bool) (r : list (option L)) :
  bins_to_cuts L_eq_dec s bins labels il = Ok r ->
  r = map (label_of bins labels il) s
  /\ List.length labels = (List.length bins - 1)%nat
  /\ ((List.length (uniqueQ bins) <? List.length bins)%nat
      && negb (List.length bins =? 2)%nat = false).
Proof.
  unfold bins_to_cuts, check_labels.
  destruct ((List.length (uniqueQ bins) <? List.length bins)%nat
            && negb (List.length bins =? 2)%nat); [discriminate|].
  destruct (negb (List.length (nodup L_eq_dec labels) =? List.length labels)%nat);
    [discriminate|].
  destruct (List.length labels =? List.length bins - 1)%nat eqn:Hlen;
    simpl; [|discriminate].
  intros H; injection H as <-.
  apply Nat.eqb_eq in Hlen.
  split; [|split; [assumption|reflexivity]].
  rewrite map_map. apply map_ext. intros [v|]; reflexivity.
Qed.

Lemma bins_to_cuts_length (s : series) (bins : list Q) (labels : list L)
    (il : bool) (r : list (option L)) :
  bins_to_cuts L_eq_dec s bins labels il = Ok r -> List.length r = List.length s.
Proof.
  intros H. apply bins_to_cuts_ok in H. destruct H as [-> _]. apply length_map.
Qed.

Lemma label_of_In (bins : list Q) (labels : list L) (il : bool) (x : option Q)
    (l : L) :
  label_of bins labels il x = Some l -> In l labels.
Proof.
  unfold label_of, take_label. destruct x as [v|]; [|discriminate].
  destruct (bin_id bins il v) as [i|]; [|discriminate].
  apply nth_error_In.
Qed.

Lemma bins_to_cuts_labels (s : series) (bins : list Q) (labels : list L)
    (il : bool) (r : list (option L)) (l : L) :
  bins_to_cuts L_eq_dec s bins labels il = Ok r -> In (Some l) r -> In l labels.
Proof.
  intros H Hin. apply bins_to_cuts_ok in H. destruct H as [-> _].
  apply in_map_iff in Hin. destruct Hin as [x [Hx _]].
  eapply label_of_In; eassumption.
Qed.

Lemma cut_length (s : series) (n : nat) (labels : list L) (r : list (option L)) :
  cut L_eq_dec s n labels = Ok r -> List.length r = List.length s.
Proof.
  unfold cut.
  destruct (n <? 1)%nat; [discriminate|].
  destruct (List.length s =? 0)%nat; [discriminate|].
  destruct (dropna s); apply bins_to_cuts_length.
Qed.

Lemma qcut_length (s : series) (q : nat) (labels : list L) (r : list (option L)) :
  qcut L_eq_dec s q labels = Ok r -> List.length r = List.length s.
Proof.
  unfold qcut. destruct (dropna s); apply bins_to_cuts_length.
Qed.

Lemma cut_labels (s : series) (n : nat) (labels : list L) (r : list (option L))
    (l : L) :
  cut L_eq_dec s n labels = Ok r -> In (Some l) r -> In l labels.
Proof.
  unfold cut.
  destruct (n <? 1)%nat; [discriminate|].
  destruct (List.length s =? 0)%nat; [discriminate|].
  destruct (dropna s); apply bins_to_cuts_labels.
Qed.

Lemma qcut_labels (s : series) (q : nat) (labels : list L) (r : list (option L))
    (l : L) :
  qcut L_eq_dec s q labels = Ok r -> In (Some l) r -> In l labels.
Proof.
  unfold qcut. destruct (dropna s); apply bins_to_cuts_labels.
Qed.

End BinningFacts.

Lemma astype_int_ok (l : list (option Z)) (r : list Z) :
  astype_int l = Ok r -> l = map Some r.
Proof.
  revert r; induction l as [|[z|] l IH]; simpl; intros r H.
  - injection H as <-. reflexivity.
  - destruct (astype_int l) as [r'|e]; simpl in H; [|discriminate].
    injection H as <-. simpl. f_equal. apply IH. reflexivity.
  - discriminate.
Qed.

(** ** The scoring helper *)

Lemma score_attempt_binned (s : series) (labels : list Z) (q : nat) (col : list Z) :
  score_attempt s labels q = Ok col ->
  (if (Nat.min q (nunique s) <? q)%nat
   then cut Z.eq_dec s (Nat.min q (nunique s)) (firstn (Nat.min q (nunique s)) labels)
   else qcut Z.eq_dec s (Nat.min q (nunique s)) (firstn (Nat.min q (nunique s)) labels))
  = Ok (map Some col).
Proof.
  unfold score_attempt. cbv zeta. intros H.
  destruct (if (Nat.min q (nunique s) <? q)%nat then _ else _) as [binned|e];
    simpl in H; [|discriminate].
  apply astype_int_ok in H. congruence.
Qed.

Lemma score_attempt_length (s : series) (labels : list Z) (q : nat) (col : list Z) :
  score_attempt s labels q = Ok col -> List.length col = List.length s.
Proof.
  intros H. apply score_attempt_binned in H.
  rewrite <- (length_map Some col).
  destruct (Nat.min q (nunique s) <? q)%nat.
  - eapply cut_length; eassumption.
  - eapply qcut_length; eassumption.
Qed.

Lemma score_attempt_labels (s : series) (labels : list Z) (q : nat) (col : list Z)
    (z : Z) :
  score_attempt s labels q = Ok col -> In z col ->
  In z (firstn (Nat.min q (nunique s)) labels).
Proof.
  intros H Hin. apply score_attempt_binned in H.
  assert (Hs : In (Some z) (map Some col)) by (apply in_map; assumption).
  destruct (Nat.min q (nunique s) <? q)%nat.
  - eapply cut_labels; eassumption.
  - eapply qcut_labels; eassumption.
Qed.

Lemma create_rfm_score_ok (s : series) (labels : list Z) (q : nat) (col : list Z) :
  score_attempt s labels q = Ok col -> create_rfm_score s labels q = col.
Proof. unfold create_rfm_score. intros ->. reflexivity. Qed.

Lemma create_rfm_score_raise (s : series) (labels : list Z) (q : nat) (e : exn) :
  score_attempt s labels q = Raise e ->
  create_rfm_score s labels q = repeat 0 (List.length s).
Proof. unfold create_rfm_score. intros ->. destruct e. reflexivity. Qed.

Lemma create_rfm_score_length (s : series) (labels : list Z) (q : nat) :
  List.length (create_rfm_score s labels q) = List.length s.
Proof.
  destruct (score_attempt s labels q) as [col|e] eqn:H.
  - rewrite (create_rfm_score_ok _ _ _ _ H). eapply score_attempt_length; eassumption.
  - rewrite (create_rfm_score_raise _ _ _ _ H). apply repeat_length.
Qed.

(** ** The scored table *)

Lemma add_scores_metrics (rows : list Metrics) (rs fs ms : list Z) :
  List.length rs = List.length rows -> List.length fs = List.length rows ->
  List.length ms = List.length rows ->
  map metrics (add_scores rows rs fs ms) = rows.
Proof.
  intros Hr Hf Hm. unfold add_scores. rewrite map_map.
  rewrite <- (map_fst_combine rows (combine rs (combine fs ms))) at 2.
  - apply map_ext. intros [m [r [f mo]]]. reflexivity.
  - rewrite !length_combine. lia.
Qed.

Lemma add_scores_sum (rows : list Metrics) (rs fs ms : list Z) (r : Scored) :
  In r (add_scores rows rs fs ms) ->
  RFM_Score r = RecencyScore r + FrequencyScore r + MonetaryScore r.
Proof.
  unfold add_scores. intros H. apply in_map_iff in H.
  destruct H as [[m [a [b c]]] [<- _]]. reflexivity.
Qed.

Lemma data_scored_metrics (now : Z) (data : list Transaction) :
  map metrics (data_scored now data) = data_merged now data.
Proof.
  unfold data_scored. apply add_scores_metrics;
    rewrite create_rfm_score_length;
    unfold recency_series, frequency_series, monetary_series, int_series;
    rewrite ?length_map; reflexivity.
Qed.

Lemma data_scored_length (now : Z) (data : list Transaction) :
  List.length (data_scored now data) = List.length data.
Proof.
  rewrite <- (length_map metrics), data_scored_metrics. apply data_merged_length.
Qed.

Lemma add_scores_columns (rows : list Metrics) (rs fs ms : list Z) :
  List.length rs = List.length rows -> List.length fs = List.length rows ->
  List.length ms = List.length rows ->
  map RecencyScore (add_scores rows rs fs ms) = rs
  /\ map FrequencyScore (add_scores rows rs fs ms) = fs
  /\ map MonetaryScore (add_scores rows rs fs ms) = ms.
Proof.
  unfold add_scores. revert rs fs ms.
  induction rows as [|m rows IH]; intros [|r rs] [|f fs] [|mo ms] Hr Hf Hm;
    simpl in *; try discriminate; auto.
  destruct (IH rs fs ms) as [H1 [H2 H3]]; try lia.
  repeat split; f_equal; assumption.
Qed.

(** Each score column is what the helper returns for its own metric; the
    other two metrics play no part in it. *)
Lemma data_scored_column (now : Z) (data : list Transaction) (k : metric) :
  map (metric_score k) (data_scored now data)
  = create_rfm_score (metric_series k (data_merged now data)) (metric_labels k) 5.
Proof.
  unfold data_scored.
  destruct (add_scores_columns (data_merged now data)
              (create_rfm_score (recency_series (data_merged now data)) recency_scores 5)
              (create_rfm_score (frequency_series (data_merged now data)) frequency_scores 5)
              (create_rfm_score (monetary_series (data_merged now data)) monetary_scores 5))
    as [H1 [H2 H3]];
    try (rewrite create_rfm_score_length;
         unfold recency_series, frequency_series, monetary_series, int_series;
         rewrite ?length_map; reflexivity).
  destruct k; simpl.
  - rewrite <- H1 at 2. apply map_ext. reflexivity.
  - rewrite <- H2 at 2. apply map_ext. reflexivity.
  - rewrite <- H3 at 2. apply map_ext. reflexivity.
Qed.

(** When the binning of a metric raises, its score column is zero on every
    row. *)
Lemma failed_binning_zero_column (now : Z) (data : list Transaction) (k : metric)
    (e : exn) :
  score_attempt (metric_series k (data_merged now data)) (metric_labels k) 5 = Raise e ->
  map (metric_score k) (data_scored now data) = repeat 0 (List.length data).
Proof.
  intros H. rewrite data_scored_column, (create_rfm_score_raise _ _ _ _ H).
  f_equal. destruct k; simpl;
    unfold recency_series, frequency_series, monetary_series, int_series;
    rewrite ?length_map; apply data_merged_length.
Qed.

(** ** Customer segments *)

Lemma loc_set_map (mask : Z -> bool) (v : string) (g : Z -> string) (scores : list Z) :
  loc_set mask v scores (map g scores)
  = map (fun s => if mask s then v else g s) scores.
Proof. induction scores as [|s scores IH]; simpl; [reflexivity|]. now rewrite IH. Qed.

Lemma relabel_columns (rules : list ((Z -> bool) * string)) (g : Z -> string)
    (scores : list Z) :
  fold_left (fun col rule => loc_set (fst rule) (snd rule) scores col) rules
            (map g scores)
  = map (fun s => relabel rules (g s) s) scores.
Proof.
  revert g. induction rules as [|[mask v] rules IH]; intros g; simpl.
  - reflexivity.
  - rewrite loc_set_map. rewrite (IH (fun s => if mask s then v else g s)).
    reflexivity.
Qed.

Lemma customer_segments_map (scores : list Z) :
  customer_segments scores = map segment_of scores.
Proof. unfold customer_segments. apply relabel_columns. Qed.

Lemma segment_of_band (s : Z) : band_table s = Some (segment_of s).
Proof.
  unfold band_table, segment_of, relabel, segment_rules. simpl.
  destruct (Z.leb_spec 9 s), (Z.leb_spec 6 s), (Z.leb_spec 5 s), (Z.leb_spec 4 s),
    (Z.ltb_spec s 9), (Z.ltb_spec s 6), (Z.ltb_spec s 5), (Z.ltb_spec s 4);
    simpl; try reflexivity; lia.
Qed.

(** ** The whole run *)

Lemma combine_maps {A B C : Type} (f : A -> B) (g : A -> C) (l : list A) :
  combine l (combine (map f l) (map g l)) = map (fun a => (a, (f a, g a))) l.
Proof. induction l as [|a l IH]; simpl; [reflexivity|]. now rewrite IH. Qed.

Lemma rfm_series_present (rows : list Scored) :
  dropna (rfm_series rows) = map (fun r => inject_Z (RFM_Score r)) rows.
Proof.
  unfold rfm_series. induction rows as [|r rows IH]; simpl; [reflexivity|].
  now rewrite IH.
Qed.

Lemma value_segments_ok (rows : list Scored) (vs : list (option string)) :
  value_segments rows = Ok vs ->
  rows <> []
  /\ vs = map (value_segment_of rows) rows
  /\ (List.length (uniqueQ (tertile_edges rows)) <? 4)%nat = false.
Proof.
  unfold value_segments, qcut. destruct rows as [|r0 rows'].
  - discriminate.
  - set (rows := r0 :: rows').
    assert (Hne : dropna (rfm_series rows) <> []).
    { rewrite rfm_series_present. discriminate. }
    destruct (dropna (rfm_series rows)) as [|v vals] eqn:Hv; [congruence|].
    intros H. apply bins_to_cuts_ok in H. destruct H as [Hvs [_ Hu]].
    split; [discriminate|]. split.
    + rewrite Hvs. unfold rfm_series. rewrite map_map.
      apply map_ext. intros r. unfold value_segment_of, tertile_edges.
      fold rows. rewrite Hv. reflexivity.
    + unfold tertile_edges. rewrite Hv.
      rewrite length_map in Hu. simpl in Hu.
      rewrite andb_true_r in Hu. rewrite <- Hu. f_equal.
Qed.

Lemma rfm_analysis_ok (now : Z) (data : list Transaction) (out : list Segmented) :
  rfm_analysis now data = Ok out ->
  value_segments (data_scored now data) = Ok (map Value_Segment out)
  /\ out = map (fun r => mkSegmented r (value_segment_of (data_scored now data) r)
                                       (segment_of (RFM_Score r)))
               (data_scored now data).
Proof.
  unfold rfm_analysis.
  destruct (value_segments (data_scored now data)) as [vs|e] eqn:Hvs;
    simpl; [|discriminate].
  intros H; injection H as <-.
  destruct (value_segments_ok _ _ Hvs) as [_ [Hmap _]].
  assert (Hout : add_segments (data_scored now data) vs
                   (customer_segments (map RFM_Score (data_scored now data)))
                 = map (fun r => mkSegmented r (value_segment_of (data_scored now data) r)
                                               (segment_of (RFM_Score r)))
                       (data_scored now data)).
  { unfold add_segments. rewrite customer_segments_map, map_map, Hmap.
    rewrite combine_maps, map_map. reflexivity. }
  split; [|exact Hout].
  rewrite Hout, map_map. simpl. f_equal. exact Hmap.
Qed.

Lemma rfm_analysis_scored (now : Z) (data : list Transaction) (out : list Segmented) :
  rfm_analysis now data = Ok out -> map scored out = data_scored now data.
Proof.
  intros H. apply rfm_analysis_ok in H. destruct H as [_ ->].
  rewrite map_map. simpl. apply map_id.
Qed.

(** ** Sorting and quantiles *)

Lemma Qlt_bool_iff (x y : Q) : Qlt_bool x y = true <-> (x < y)%Q.
Proof.
  unfold Qlt_bool. rewrite negb_true_iff. split.
  - intros H. apply Qnot_le_lt. intros Hle.
    apply Qle_bool_iff in Hle. congruence.
  - intros H. destruct (Qle_bool y x) eqn:E; [|reflexivity].
    apply Qle_bool_iff in E. exfalso. apply (Qlt_not_le _ _ H E).
Qed.

Lemma Qlt_bool_false (x y : Q) : Qlt_bool x y = false <-> (y <= x)%Q.
Proof.
  unfold Qlt_bool. rewrite negb_false_iff. apply Qle_bool_iff.
Qed.

Lemma insertQ_perm (x : Q) (l : list Q) : Permutation (insertQ x l) (x :: l).
Proof.
  induction l as [|y l IH]; simpl.
  - apply Permutation_refl.
  - destruct (Qle_bool x y).
    + apply Permutation_refl.
    + apply perm_trans with (y :: x :: l); [apply perm_skip, IH|apply perm_swap].
Qed.

Lemma sortQ_perm (l : list Q) : Permutation (sortQ l) l.
Proof.
  induction l as [|x l IH]; simpl.
  - apply perm_nil.
  - apply perm_trans with (x :: sortQ l); [apply insertQ_perm|apply perm_skip, IH].
Qed.

Lemma sortQ_length (l : list Q) : List.length (sortQ l) = List.length l.
Proof. apply Permutation_length, sortQ_perm. Qed.

Lemma insertQ_sorted (x : Q) (l : list Q) :
  StronglySorted Qle l -> StronglySorted Qle (insertQ x l).
Proof.
  induction 1 as [|y l Hs IH Hall]; simpl.
  - repeat constructor.
  - destruct (Qle_bool x y) eqn:E.
    + apply Qle_bool_iff in E. constructor.
      * constructor; assumption.
      * constructor; [assumption|].
        eapply Forall_impl; [|exact Hall]. intros z Hz. eapply Qle_trans; eassumption.
    + assert (Hyx : (y <= x)%Q).
      { apply Qlt_le_weak, Qnot_le_lt. intros Hle.
        apply Qle_bool_iff in Hle. congruence. }
      constructor; [assumption|].
      apply (Permutation_Forall (Permutation_sym (insertQ_perm x l))).
      constructor; assumption.
Qed.

Lemma sortQ_sorted (l : list Q) : StronglySorted Qle (sortQ l).
Proof.
  induction l as [|x l IH]; simpl; [constructor|]. apply insertQ_sorted, IH.
Qed.

Lemma sorted_nth_le (v : list Q) (d : Q) :
  StronglySorted Qle v ->
  forall i j, (i <= j)%nat -> (j < List.length v)%nat -> (nth i v d <= nth j v d)%Q.
Proof.
  induction 1 as [|x v Hs IH Hall]; intros i j Hij Hj; simpl in Hj; [lia|].
  destruct i as [|i], j as [|j]; simpl; try lia.
  - apply Qle_refl.
  - rewrite Forall_forall in Hall. apply Hall, nth_In. lia.
  - apply IH; lia.
Qed.

(** Every value lies between the first and the last of the sorted values. *)
Lemma sortQ_bounds (vals : list Q) (x : Q) :
  In x vals ->
  (nth 0 (sortQ vals) 0 <= x)%Q
  /\ (x <= nth (List.length vals - 1) (sortQ vals) 0)%Q.
Proof.
  intros Hin.
  apply (Permutation_in _ (Permutation_sym (sortQ_perm vals))) in Hin.
  destruct (In_nth _ _ 0%Q Hin) as [i [Hi <-]].
  rewrite sortQ_length in Hi.
  split; apply sorted_nth_le; try apply sortQ_sorted; rewrite ?sortQ_length; lia.
Qed.

(** A quantile whose position is a whole number is the value there. *)
Lemma quantile_at (vals : list Q) (p : Q) (k : nat) :
  (inject_Z (Z.of_nat (List.length vals) - 1) * p == inject_Z (Z.of_nat k))%Q ->
  (quantile vals p == nth k (sortQ vals) 0)%Q.
Proof.
  intros Hh. unfold quantile. rewrite sortQ_length.
  set (h := (inject_Z (Z.of_nat (List.length vals) - 1) * p)%Q) in *.
  assert (Hfl : Qfloor h = Z.of_nat k).
  { rewrite (Qfloor_comp _ _ Hh). apply Qfloor_Z. }
  rewrite Hfl, Nat2Z.id.
  assert (Hfrac : (h - inject_Z (Z.of_nat k) == 0)%Q) by (rewrite Hh; ring).
  rewrite Hfrac. ring.
Qed.

Lemma quantile_min (vals : list Q) :
  (quantile vals (0 # 3) == nth 0 (sortQ vals) 0)%Q.
Proof. apply quantile_at. simpl. ring. Qed.

Lemma quantile_max (vals : list Q) :
  vals <> [] ->
  (quantile vals (3 # 3) == nth (List.length vals - 1) (sortQ vals) 0)%Q.
Proof.
  intros Hne. apply quantile_at.
  assert (Hn : (1 <= List.length vals)%nat).
  { destruct vals; [congruence|simpl; lia]. }
  rewrite Nat2Z.inj_sub by exact Hn. simpl (Z.of_nat 1).
  setoid_replace (3 # 3)%Q with 1%Q by reflexivity. ring.
Qed.

Lemma quantile_lower (vals : list Q) (p : Q) :
  vals <> [] -> (0 <= p)%Q -> (p <= 1)%Q ->
  (nth 0 (sortQ vals) 0 <= quantile vals p)%Q.
Proof.
  intros Hne Hp0 Hp1.
  assert (Hn : (1 <= List.length vals)%nat).
  { destruct vals; [congruence|simpl; lia]. }
  unfold quantile. rewrite sortQ_length.
  set (m := inject_Z (Z.of_nat (List.length vals) - 1)).
  assert (Hm : (0 <= m)%Q).
  { unfold m. change 0%Q with (inject_Z 0). rewrite <- Zle_Qle. lia. }
  set (h := (m * p)%Q).
  assert (Hh0 : (0 <= h)%Q) by (unfold h; apply Qmult_le_0_compat; assumption).
  assert (Hh1 : (h <= m)%Q) by (unfold h; nra).
  assert (Hf0 : (0 <= Qfloor h)%Z).
  { change 0%Z with (Qfloor 0). apply Qfloor_resp_le, Hh0. }
  assert (Hf1 : (Qfloor h <= Z.of_nat (List.length vals) - 1)%Z).
  { rewrite <- (Qfloor_Z (Z.of_nat (List.length vals) - 1)).
    apply Qfloor_resp_le, Hh1. }
  set (lo := Z.to_nat (Qfloor h)).
  assert (Hlo : (lo < List.length vals)%nat) by (unfold lo; lia).
  set (v := sortQ vals).
  assert (Hlen : List.length v = List.length vals) by apply sortQ_length.
  assert (Ha : (nth 0 v 0 <= nth lo v 0)%Q).
  { apply sorted_nth_le; [apply sortQ_sorted|lia|lia]. }
  assert (Hb : (nth lo v 0 <= nth (S lo) v (nth lo v 0))%Q).
  { destruct (Nat.lt_ge_cases (S lo) (List.length v)) as [Hin|Hout].
    - rewrite (nth_indep v (nth lo v 0%Q) 0%Q Hin).
      apply sorted_nth_le; [apply sortQ_sorted|lia|lia].
    - rewrite (nth_overflow v _ Hout). apply Qle_refl. }
  assert (Hfrac : (0 <= h - inject_Z (Qfloor h))%Q).
  { pose proof (Qfloor_le h). lra. }
  set (a := nth lo v 0%Q) in *. set (b := nth (S lo) v a) in *.
  set (fr := (h - inject_Z (Qfloor h))%Q) in *.
  assert (Hprod : (0 <= (b - a) * fr)%Q).
  { apply Qmult_le_0_compat; [lra|assumption]. }
  lra.
Qed.

Lemma quantile_upper (vals : list Q) (p : Q) :
  vals <> [] -> (0 <= p)%Q -> (p <= 1)%Q ->
  (quantile vals p <= nth (List.length vals - 1) (sortQ vals) 0)%Q.
Proof.
  intros Hne Hp0 Hp1.
  assert (Hn : (1 <= List.length vals)%nat).
  { destruct vals; [congruence|simpl; lia]. }
  unfold quantile. rewrite sortQ_length.
  set (m := inject_Z (Z.of_nat (List.length vals) - 1)).
  assert (Hm : (0 <= m)%Q).
  { unfold m. change 0%Q with (inject_Z 0). rewrite <- Zle_Qle. lia. }
  set (h := (m * p)%Q).
  assert (Hh0 : (0 <= h)%Q) by (unfold h; apply Qmult_le_0_compat; assumption).
  assert (Hh1 : (h <= m)%Q) by (unfold h; nra).
  assert (Hf0 : (0 <= Qfloor h)%Z).
  { change 0%Z with (Qfloor 0). apply Qfloor_resp_le, Hh0. }
  assert (Hf1 : (Qfloor h <= Z.of_nat (List.length vals) - 1)%Z).
  { rewrite <- (Qfloor_Z (Z.of_nat (List.length vals) - 1)).
    apply Qfloor_resp_le, Hh1. }
  set (lo := Z.to_nat (Qfloor h)).
  assert (Hlo : (lo < List.length vals)%nat) by (unfold lo; lia).
  set (v := sortQ vals).
  assert (Hlen : List.length v = List.length vals) by apply sortQ_length.
  set (top := nth (List.length vals - 1) v 0%Q).
  assert (Ha : (nth lo v 0 <= top)%Q).
  { apply sorted_nth_le; [apply sortQ_sorted|lia|lia]. }
  assert (Hab : (nth lo v 0 <= nth (S lo) v (nth lo v 0%Q))%Q
                /\ (nth (S lo) v (nth lo v 0%Q) <= top)%Q).
  { destruct (Nat.lt_ge_cases (S lo) (List.length v)) as [Hin|Hout].
    - rewrite (nth_indep v (nth lo v 0%Q) 0%Q Hin).
      split; apply sorted_nth_le; try apply sortQ_sorted; lia.
    - rewrite (nth_overflow v _ Hout). split; [apply Qle_refl|exact Ha]. }
  destruct Hab as [Hab Hb].
  assert (Hfrac : (h - inject_Z (Qfloor h) <= 1)%Q).
  { pose proof (Qlt_floor h) as Hlt. rewrite inject_Z_plus in Hlt.
    change (inject_Z 1) with 1%Q in Hlt. lra. }
  set (a := nth lo v 0%Q) in *. set (b := nth (S lo) v a) in *.
  set (fr := (h - inject_Z (Qfloor h))%Q) in *.
  assert (Hprod : (0 <= (b - a) * (1 - fr))%Q).
  { apply Qmult_le_0_compat; lra. }
  lra.
Qed.

(** Every quantile of a constant column is that constant. *)
Lemma quantile_constant (vals : list Q) (x p : Q) :
  vals <> [] -> (forall y, In y vals -> y = x) -> (0 <= p)%Q -> (p <= 1)%Q ->
  (quantile vals p == x)%Q.
Proof.
  intros Hne Hall Hp0 Hp1.
  assert (Hn : (1 <= List.length vals)%nat).
  { destruct vals; [congruence|simpl; lia]. }
  assert (Hnth : forall i, (i < List.length vals)%nat -> nth i (sortQ vals) 0%Q = x).
  { intros i Hi. apply Hall.
    apply (Permutation_in _ (sortQ_perm vals)), nth_In.
    rewrite sortQ_length. exact Hi. }
  apply Qle_antisym.
  - rewrite <- (Hnth (List.length vals - 1)%nat) by lia.
    apply quantile_upper; assumption.
  - rewrite <- (Hnth 0%nat) by lia.
    apply quantile_lower; assumption.
Qed.

(** ** The tertile split *)

(** The four edges of line 92, one by one. *)
Lemma tertile_edges_eq (rows : list Scored) :
  tertile_edges rows
  = [ quantile (dropna (rfm_series rows)) (0 # 3); tertile 1 rows; tertile 2 rows;
      quantile (dropna (rfm_series rows)) (3 # 3) ].
Proof. reflexivity. Qed.

Lemma value_segment_tertile (rows : list Scored) (r : Scored) :
  In r rows -> value_segment_of rows r = Some (tertile_label rows (RFM_Score r)).
Proof.
  intros Hin.
  set (vals := dropna (rfm_series rows)).
  set (x := inject_Z (RFM_Score r)).
  assert (Hx : In x vals).
  { unfold vals. rewrite rfm_series_present.
    apply (in_map (fun r => inject_Z (RFM_Score r))), Hin. }
  assert (Hne : vals <> []) by (intros E; rewrite E in Hx; exact Hx).
  destruct (sortQ_bounds vals x Hx) as [Hlo Hhi].
  rewrite <- (quantile_min vals) in Hlo.
  rewrite <- (quantile_max vals Hne) in Hhi.
  assert (He1 : (quantile vals (0 # 3) <= tertile 1 rows)%Q).
  { rewrite (quantile_min vals). apply quantile_lower; [exact Hne| |];
      unfold Qle; simpl; lia. }
  unfold value_segment_of, tertile_label, label_of, bin_id.
  rewrite tertile_edges_eq. fold vals x.
  cbn [hd List.length searchsorted_left andb].
  destruct (Qeq_bool x (quantile vals (0 # 3))) eqn:E0.
  - apply Qeq_bool_iff in E0.
    assert (H1 : Qle_bool x (tertile 1 rows) = true).
    { apply Qle_bool_iff. rewrite E0. exact He1. }
    rewrite H1. reflexivity.
  - assert (Hlt : Qlt_bool (quantile vals (0 # 3)) x = true).
    { apply Qlt_bool_iff. apply Qle_lteq in Hlo. destruct Hlo as [Hlt|Heq]; [exact Hlt|].
      exfalso. apply Qeq_bool_neq in E0. apply E0. symmetry. exact Heq. }
    rewrite Hlt.
    assert (L1 : Qlt_bool (tertile 1 rows) x = negb (Qle_bool x (tertile 1 rows)))
      by reflexivity.
    assert (L2 : Qlt_bool (tertile 2 rows) x = negb (Qle_bool x (tertile 2 rows)))
      by reflexivity.
    assert (L3 : Qlt_bool (quantile vals (3 # 3)) x = false).
    { apply Qlt_bool_false. exact Hhi. }
    rewrite L1, L2, L3.
    destruct (Qle_bool x (tertile 1 rows)); [reflexivity|].
    destruct (Qle_bool x (tertile 2 rows)); reflexivity.
Qed.

Lemma tertile_label_In (rows : list Scored) (s : Z) :
  In (tertile_label rows s) segment_labels.
Proof.
  unfold tertile_label, segment_labels.
  destruct (Qle_bool _ _); [simpl; auto|].
  destruct (Qle_bool _ _); simpl; auto.
Qed.

Lemma tertile_label_mono (rows : list Scored) (s1 s2 : Z) :
  s1 <= s2 ->
  (segment_rank (tertile_label rows s1) <= segment_rank (tertile_label rows s2))%nat.
Proof.
  intros H. rewrite Zle_Qle in H. unfold tertile_label.
  destruct (Qle_bool (inject_Z s2) (tertile 1 rows)) eqn:A2.
  - apply Qle_bool_iff in A2.
    assert (A1 : Qle_bool (inject_Z s1) (tertile 1 rows) = true).
    { apply Qle_bool_iff. eapply Qle_trans; eassumption. }
    rewrite A1. apply Nat.le_refl.
  - destruct (Qle_bool (inject_Z s2) (tertile 2 rows)) eqn:B2.
    + apply Qle_bool_iff in B2.
      destruct (Qle_bool (inject_Z s1) (tertile 1 rows)); [cbv; lia|].
      assert (B1 : Qle_bool (inject_Z s1) (tertile 2 rows) = true).
      { apply Qle_bool_iff. eapply Qle_trans; eassumption. }
      rewrite B1. apply Nat.le_refl.
    + destruct (Qle_bool (inject_Z s1) (tertile 1 rows)); [cbv; lia|].
      destruct (Qle_bool (inject_Z s1) (tertile 2 rows)); cbv; lia.
Qed.

(** ** Frequency and MonetaryValue *)

Lemma data_merged_txn (now : Z) (data : list Transaction) :
  map txn (data_merged now data) = data.
Proof. rewrite data_merged_rows, map_map. simpl. apply map_id. Qed.

Lemma data_merged_In (now : Z) (data : list Transaction) (m : Metrics) :
  In m (data_merged now data) -> In (txn m) data /\ m = metrics_of now data (txn m).
Proof.
  rewrite data_merged_rows. intros H. apply in_map_iff in H.
  destruct H as [t [<- Ht]]. simpl. auto.
Qed.

Lemma merged_aggregates (now : Z) (data : list Transaction) (m : Metrics) (c : string) :
  In m (data_merged now data) -> CustomerID (txn m) = Some c ->
  Frequency m = Some (order_count data c) /\ MonetaryValue m = Some (amount_sum data c).
Proof.
  intros Hin Hc. apply data_merged_In in Hin. destruct Hin as [_ Hm].
  rewrite Hm. simpl. rewrite Hc. simpl. auto.
Qed.

Lemma dropna_all_present {A B : Type} (f : A -> option B) (l : list A) :
  Forall (fun a => f a <> None) l ->
  List.length (dropna (map f l)) = List.length l.
Proof.
  induction 1 as [|a l Ha Hl IH]; simpl; [reflexivity|].
  destruct (f a); [simpl; congruence|congruence].
Qed.

Lemma nodup_length_le {A : Type} (dec : forall x y : A, {x = y} + {x <> y})
    (l : list A) :
  (List.length (nodup dec l) <= List.length l)%nat.
Proof.
  induction l as [|a l IH]; simpl; [lia|].
  destruct (in_dec dec a l); simpl; lia.
Qed.

Lemma nodup_length_NoDup {A : Type} (dec : forall x y : A, {x = y} + {x <> y})
    (l : list A) :
  List.length (nodup dec l) = List.length l <-> NoDup l.
Proof.
  split.
  - induction l as [|a l IH]; simpl; intros H; [constructor|].
    pose proof (nodup_length_le dec l) as Hle.
    destruct (in_dec dec a l) as [Hin|Hout]; simpl in H; [lia|].
    constructor; [assumption|]. apply IH. lia.
  - intros H. now rewrite (nodup_fixed_point dec H).
Qed.




(** C5 (as amended). Frequency counts the customer's rows with a present
    OrderID, a repeated OrderID once per row; it is never below the number
    of distinct OrderID values and equals it exactly when no OrderID
    repeats. *)
Theorem frequency_counts_order_cells :
  forall (now : Z) (data : list Transaction) (m : Metrics) (c : string),
    In m (data_merged now data) ->
    CustomerID (txn m) = Some c ->
    Frequency m = Some (Z.of_nat (List.length (dropna (map OrderID (group c data)))))
    /\ distinct_orders c data <= Z.of_nat (List.length (dropna (map OrderID (group c data))))
    /\ (Frequency m = Some (distinct_orders c data)
        <-> NoDup (dropna (map OrderID (group c data)))).
Proof.
  intros now data m c Hin Hc.
  destruct (merged_aggregates now data m c Hin Hc) as [Hf _].
  unfold order_count, count_notna in Hf. unfold distinct_orders.
  split; [exact Hf|]. split.
  - apply Nat2Z.inj_le, nodup_length_le.
  - rewrite Hf, <- nodup_length_NoDup with (dec := string_dec). split.
    + intros H. injection H as H. apply Nat2Z.inj in H. now symmetry.
    + intros H. now rewrite H.
Qed.

Lemma frequency_counts_order_cells_example :
  let m := metrics_of skew_now repeated_order_data (row "C001" 10 "O001" 20.00%Q) in
  Frequency m = Some 2 /\ distinct_orders "C001" repeated_order_data = 1.
Proof.
  intros m.
  assert (Hin : In m (data_merged skew_now repeated_order_data)).
  { vm_compute. left. reflexivity. }
  destruct (frequency_counts_order_cells skew_now repeated_order_data m "C001"
              Hin eq_refl) as [Hf _].
  split; [exact Hf|reflexivity].
Defined.

(** C5 (as stated) fails when an OrderID repeats: two rows, one distinct
    OrderID, Frequency 2. *)
Lemma frequency_is_not_distinct_orders :
  ~ (forall (m : Metrics) (c : string),
       In m (data_merged skew_now repeated_order_data) ->
       CustomerID (txn m) = Some c ->
       Frequency m = Some (distinct_orders c repeated_order_data)).
Proof.
  intros H.
  specialize (H (metrics_of skew_now repeated_order_data
                   (row "C001" 10 "O001" 20.00%Q)) "C001").
  assert (Hin : In (metrics_of skew_now repeated_order_data
                      (row "C001" 10 "O001" 20.00%Q))
                   (data_merged skew_now repeated_order_data)).
  { vm_compute. left. reflexivity. }
  specialize (H Hin eq_refl). vm_compute in H. discriminate.
Qed.

(** ** Row count *)

(** C4. No step drops, repeats or merges a row: the table after the two
    merges, the scored table and the final table each have one row per
    input row, in the input order. *)
Theorem row_count_preserved :
  forall (now : Z) (data : list Transaction),
    List.length (data_merged now data) = List.length data
    /\ map txn (data_merged now data) = data
    /\ List.length (data_scored now data) = List.length data
    /\ (forall out : list Segmented,
          rfm_analysis now data = Ok out ->
          List.length out = List.length data
          /\ map (fun r => txn (metrics (scored r))) out = data).
Proof.
  intros now data.
  split; [apply data_merged_length|].
  split; [apply data_merged_txn|].
  split; [apply data_scored_length|].
  intros out H. apply rfm_analysis_scored in H.
  split.
  - rewrite <- (length_map scored), H. apply data_scored_length.
  - rewrite <- (map_map scored (fun r => txn (metrics r))), H.
    rewrite <- (map_map metrics txn), data_scored_metrics. apply data_merged_txn.
Qed.

Lemma row_count_preserved_example :
  exists out : list Segmented,
    rfm_analysis example_now example_data = Ok out /\ List.length out = 9%nat.
Proof.
  destruct (rfm_analysis example_now example_data) as [out|e] eqn:H.
  - exists out. split; [reflexivity|].
    destruct (row_count_preserved example_now example_data) as [_ [_ [_ Hout]]].
    destruct (Hout out H) as [Hlen _]. exact Hlen.
  - exfalso. vm_compute in H. discriminate.
Defined.

(** ** RFM_Score *)

(** C6. On every row, of the scored table and of the final table alike,
    RFM_Score is the sum of the three scores, and it lies in 3..15 when each
    score lies in 1..5. *)
Theorem rfm_score_sum_and_range :
  (forall (now : Z) (data : list Transaction) (r : Scored),
      In r (data_scored now data) -> sum_of_scores r)
  /\ (forall (now : Z) (data : list Transaction) (out : list Segmented) (s : Segmented),
        rfm_analysis now data = Ok out -> In s out -> sum_of_scores (scored s)).
Proof.
  assert (H : forall now data r, In r (data_scored now data) -> sum_of_scores r).
  { intros now data r Hin. unfold data_scored in Hin.
    apply add_scores_sum in Hin. split; [exact Hin|]. lia. }
  split; [exact H|].
  intros now data out s Hok Hin. apply (H now data).
  rewrite <- (rfm_analysis_scored now data out Hok). apply in_map, Hin.
Qed.

Lemma rfm_score_sum_and_range_example :
  exists (out : list Segmented) (s : Segmented),
    rfm_analysis skew_now tied_data = Ok out
    /\ nth_error out 0 = Some s
    /\ RFM_Score (scored s) = 5 + 1 + 1
    /\ 3 <= RFM_Score (scored s) <= 15.
Proof.
  destruct (rfm_analysis skew_now tied_data) as [out|e] eqn:H;
    [|exfalso; vm_compute in H; discriminate].
  destruct out as [|s out']; [exfalso; vm_compute in H; discriminate|].
  exists (s :: out'), s.
  destruct (proj2 rfm_score_sum_and_range skew_now tied_data (s :: out') s H
              (or_introl eq_refl)) as [Hsum Hrange].
  assert (Hs : scored s = nth 0 (data_scored skew_now tied_data) (scored s)).
  { rewrite <- (rfm_analysis_scored _ _ _ H). reflexivity. }
  assert (Hr : RecencyScore (scored s) = 5) by (rewrite Hs; vm_compute; reflexivity).
  assert (Hf : FrequencyScore (scored s) = 1) by (rewrite Hs; vm_compute; reflexivity).
  assert (Hm : MonetaryScore (scored s) = 1) by (rewrite Hs; vm_compute; reflexivity).
  split; [reflexivity|]. split; [reflexivity|]. split.
  - rewrite Hsum, Hr, Hf, Hm. reflexivity.
  - apply Hrange; lia.
Defined.

(** ** RFM Customer Segments *)

Lemma segment_of_in_band (s : Z) : in_band s (segment_of s).
Proof.
  unfold in_band, segment_of, relabel, segment_rules. simpl.
  destruct (Z.leb_spec 9 s), (Z.leb_spec 6 s), (Z.leb_spec 5 s), (Z.leb_spec 4 s),
    (Z.ltb_spec s 9), (Z.ltb_spec s 6), (Z.ltb_spec s 5), (Z.ltb_spec s 4);
    simpl; repeat split; intros; try reflexivity; lia.
Qed.

Lemma segment_of_label (s : Z) : In (segment_of s) customer_segment_labels.
Proof.
  unfold segment_of, relabel, segment_rules, customer_segment_labels. simpl.
  destruct (Z.leb_spec 9 s), (Z.leb_spec 6 s), (Z.leb_spec 5 s), (Z.leb_spec 4 s),
    (Z.ltb_spec s 9), (Z.ltb_spec s 6), (Z.ltb_spec s 5), (Z.ltb_spec s 4);
    simpl; auto 6; lia.
Qed.

Lemma one_band_matches (s : Z) : bands_matching s = 1%nat.
Proof.
  unfold bands_matching, segment_rules. simpl.
  destruct (Z.leb_spec 9 s), (Z.leb_spec 6 s), (Z.leb_spec 5 s), (Z.leb_spec 4 s),
    (Z.ltb_spec s 9), (Z.ltb_spec s 6), (Z.ltb_spec s 5), (Z.ltb_spec s 4);
    simpl; try reflexivity; lia.
Qed.

Lemma rfm_analysis_segment (now : Z) (data : list Transaction) (out : list Segmented)
    (r : Segmented) :
  rfm_analysis now data = Ok out -> In r out ->
  RFM_Customer_Segments r = segment_of (RFM_Score (scored r)).
Proof.
  intros H Hin. apply rfm_analysis_ok in H. destruct H as [_ ->].
  apply in_map_iff in Hin. destruct Hin as [sc [<- _]]. reflexivity.
Qed.

(** C3. The segment column is computed score by score by one function of
    RFM_Score, and that function is the band table: at least 9 Champions,
    6 to 8 Potential Loyalists, 5 At Risk Customers, 4 Can't Lose, below 4
    Lost. *)
Theorem customer_segment_band_table :
  (forall scores : list Z,
      map Some (customer_segments scores) = map band_table scores)
  /\ (forall (now : Z) (data : list Transaction) (out : list Segmented) (r : Segmented),
        rfm_analysis now data = Ok out ->
        In r out ->
        band_table (RFM_Score (scored r)) = Some (RFM_Customer_Segments r)
        /\ in_band (RFM_Score (scored r)) (RFM_Customer_Segments r)).
Proof.
  split.
  - intros scores. rewrite customer_segments_map, map_map.
    apply map_ext. intros s. symmetry. apply segment_of_band.
  - intros now data out r H Hin.
    rewrite (rfm_analysis_segment now data out r H Hin).
    split; [apply segment_of_band|apply segment_of_in_band].
Qed.

Lemma customer_segment_band_table_example :
  exists (out : list Segmented) (r : Segmented),
    rfm_analysis skew_now tied_data = Ok out
    /\ nth_error out 0 = Some r
    /\ RFM_Score (scored r) = 7
    /\ RFM_Customer_Segments r = "Potential Loyalists".
Proof.
  destruct (rfm_analysis skew_now tied_data) as [out|e] eqn:H;
    [|exfalso; vm_compute in H; discriminate].
  destruct out as [|r out']; [exfalso; vm_compute in H; discriminate|].
  exists (r :: out'), r.
  destruct customer_segment_band_table as [_ Hrow].
  destruct (Hrow skew_now tied_data (r :: out') r H (or_introl eq_refl)) as [Hband _].
  assert (Hs : RFM_Score (scored r) = 7).
  { vm_compute in H. injection H as H _. rewrite <- H. reflexivity. }
  rewrite Hs in Hband.
  split; [reflexivity|]. split; [reflexivity|]. split; [exact Hs|].
  change (band_table 7) with (Some "Potential Loyalists") in Hband.
  injection Hband as Hband. symmetry. exact Hband.
Defined.

(** C10. Exactly one of the five assignments selects any given score, so
    the five assignments give every score of the column, position by
    position, one of the five labels, the one of the band the score lies
    in, and no position keeps the initial empty string; the final table
    has a row for every row of the upload, each with such a label. *)
Theorem every_row_gets_one_of_five_labels :
  (forall s : Z, bands_matching s = 1%nat)
  /\ (forall scores : list Z,
        List.length (customer_segments scores) = List.length scores
        /\ Forall (fun l => In l customer_segment_labels /\ l <> "")
                  (customer_segments scores)
        /\ (forall (i : nat) (s : Z),
              nth_error scores i = Some s ->
              exists l : string,
                nth_error (customer_segments scores) i = Some l
                /\ In l customer_segment_labels /\ l <> "" /\ in_band s l))
  /\ (forall (now : Z) (data : list Transaction) (out : list Segmented),
        rfm_analysis now data = Ok out ->
        List.length out = List.length data
        /\ (forall r : Segmented,
              In r out ->
              In (RFM_Customer_Segments r) customer_segment_labels
              /\ RFM_Customer_Segments r <> ""
              /\ in_band (RFM_Score (scored r)) (RFM_Customer_Segments r))).
Proof.
  assert (Hlabel : forall s, In (segment_of s) customer_segment_labels
                             /\ segment_of s <> "").
  { intros s. pose proof (segment_of_label s) as Hl. split; [exact Hl|].
    intros E. rewrite E in Hl. vm_compute in Hl.
    repeat (destruct Hl as [Hl|Hl]; [discriminate|]). exact Hl. }
  split; [exact one_band_matches|]. split.
  - intros scores. rewrite customer_segments_map. split; [apply length_map|]. split.
    + apply Forall_forall.
      intros l Hin. apply in_map_iff in Hin. destruct Hin as [s [<- _]]. apply Hlabel.
    + intros i s Hi. exists (segment_of s). split.
      * now apply map_nth_error.
      * destruct (Hlabel s) as [H1 H2].
        split; [exact H1|]. split; [exact H2|apply segment_of_in_band].
  - intros now data out H. split.
    + rewrite <- (data_scored_length now data).
      rewrite <- (rfm_analysis_scored now data out H). now rewrite length_map.
    + intros r Hin.
      rewrite (rfm_analysis_segment now data out r H Hin).
      destruct (Hlabel (RFM_Score (scored r))) as [H1 H2].
      split; [exact H1|]. split; [exact H2|apply segment_of_in_band].
Qed.

Lemma every_row_gets_one_of_five_labels_example :
  exists out : list Segmented,
    rfm_analysis example_now example_data = Ok out
    /\ List.length out = 9%nat
    /\ Forall (fun r => In (RFM_Customer_Segments r) customer_segment_labels
                        /\ RFM_Customer_Segments r <> "") out.
Proof.
  destruct (rfm_analysis example_now example_data) as [out|e] eqn:H;
    [|exfalso; vm_compute in H; discriminate].
  exists out. split; [reflexivity|].
  destruct every_row_gets_one_of_five_labels as [_ [_ Hrun]].
  destruct (Hrun example_now example_data out H) as [Hlen Hrow].
  split; [exact Hlen|].
  apply Forall_forall. intros r Hin.
  destruct (Hrow r Hin) as [H1 [H2 _]]. split; assumption.
Defined.

(** ** Low cardinality fallback *)

Lemma distinct_scores_bound (col labels : list Z) :
  (forall z, In z col -> In z labels) ->
  (distinct_scores col <= List.length labels)%nat.
Proof.
  intros H. unfold distinct_scores.
  apply NoDup_incl_length; [apply NoDup_nodup|].
  intros z Hz. apply H. eapply nodup_In. exact Hz.
Qed.

(** C7 (as amended). A series with [u < 5] distinct values is binned by
    [cut] into [u] equal-width buckets labelled with the first [u] labels;
    the scores it gets are among these [u] labels, so they take at most [u]
    distinct values, possibly fewer; when the binning raises, the column is
    all zeros. *)
Theorem low_cardinality_fallback :
  forall (s : series) (score_labels : list Z),
    (nunique s < 5)%nat ->
    score_attempt s score_labels 5
    = (binned <- cut Z.eq_dec s (nunique s) (firstn (nunique s) score_labels) ;;
       astype_int binned)
    /\ (forall col : list Z,
          score_attempt s score_labels 5 = Ok col ->
          create_rfm_score s score_labels 5 = col
          /\ (forall z, In z col -> In z (firstn (nunique s) score_labels))
          /\ (distinct_scores col <= nunique s)%nat)
    /\ (forall e : exn,
          score_attempt s score_labels 5 = Raise e ->
          create_rfm_score s score_labels 5 = repeat 0 (List.length s)).
Proof.
  intros s labels Hu.
  assert (Hmin : Nat.min 5 (nunique s) = nunique s) by lia.
  split; [|split].
  - unfold score_attempt. rewrite Hmin.
    destruct (Nat.ltb_spec (nunique s) 5) as [_|Hge]; [reflexivity|lia].
  - intros col Hok.
    assert (Hin : forall z, In z col -> In z (firstn (nunique s) labels)).
    { intros z Hz. rewrite <- Hmin. eapply score_attempt_labels; eassumption. }
    split; [apply create_rfm_score_ok; exact Hok|]. split; [exact Hin|].
    apply Nat.le_trans with (List.length (firstn (nunique s) labels)).
    + apply distinct_scores_bound, Hin.
    + rewrite length_firstn. lia.
  - intros e. apply create_rfm_score_raise.
Qed.

Lemma low_cardinality_fallback_example :
  create_rfm_score gap_series frequency_scores 5 = [1; 1; 3]
  /\ (distinct_scores [1; 1; 3]%Z <= nunique gap_series)%nat.
Proof.
  assert (Hu : (nunique gap_series < 5)%nat) by (vm_compute; lia).
  destruct (low_cardinality_fallback gap_series frequency_scores Hu) as [_ [Hok _]].
  assert (Hcol : score_attempt gap_series frequency_scores 5 = Ok [1; 1; 3])
    by (vm_compute; reflexivity).
  destruct (Hok [1; 1; 3] Hcol) as [Hc [_ Hd]].
  split; [exact Hc|exact Hd].
Defined.

(** C7 (as stated) fails: two of three distinct values fall into the same
    equal-width bucket, and the column has two distinct scores, not
    three. *)
Lemma fallback_may_leave_buckets_empty :
  ~ (forall (s : series) (score_labels : list Z),
       (nunique s < 5)%nat ->
       distinct_scores (create_rfm_score s score_labels 5) = nunique s).
Proof.
  intros H. specialize (H gap_series frequency_scores).
  assert (Hu : (nunique gap_series < 5)%nat) by (vm_compute; lia).
  specialize (H Hu). vm_compute in H. discriminate.
Qed.

(** ** Value Segment *)

Lemma rfm_analysis_value_segment (now : Z) (data : list Transaction)
    (out : list Segmented) (r : Segmented) :
  rfm_analysis now data = Ok out -> In r out ->
  Value_Segment r = Some (tertile_label (data_scored now data) (RFM_Score (scored r))).
Proof.
  intros H Hin. apply rfm_analysis_ok in H. destruct H as [_ ->].
  apply in_map_iff in Hin. destruct Hin as [sc [<- Hsc]]. simpl.
  apply value_segment_tertile, Hsc.
Qed.

(** ** Quantiles grow with the level *)

Lemma quantile_parts (vals : list Q) (p : Q) :
  vals <> [] -> (0 <= p)%Q -> (p <= 1)%Q ->
  exists (lo : nat) (fr : Q),
    Z.of_nat lo = Qfloor (inject_Z (Z.of_nat (List.length vals) - 1) * p)
    /\ (fr == inject_Z (Z.of_nat (List.length vals) - 1) * p - inject_Z (Z.of_nat lo))%Q
    /\ (lo < List.length vals)%nat
    /\ (0 <= fr)%Q /\ (fr < 1)%Q
    /\ (nth lo (sortQ vals) 0 <= nth (S lo) (sortQ vals) (nth lo (sortQ vals) 0%Q))%Q
    /\ ((S lo < List.length vals)%nat ->
        nth (S lo) (sortQ vals) (nth lo (sortQ vals) 0%Q) = nth (S lo) (sortQ vals) 0%Q)
    /\ quantile vals p
       = (nth lo (sortQ vals) 0
          + (nth (S lo) (sortQ vals) (nth lo (sortQ vals) 0%Q) - nth lo (sortQ vals) 0) * fr)%Q.
Proof.
  intros Hne Hp0 Hp1.
  assert (Hn : (1 <= List.length vals)%nat).
  { destruct vals; [congruence|simpl; lia]. }
  set (m := inject_Z (Z.of_nat (List.length vals) - 1)).
  assert (Hm : (0 <= m)%Q).
  { unfold m. change 0%Q with (inject_Z 0). rewrite <- Zle_Qle. lia. }
  set (h := (m * p)%Q).
  assert (Hh0 : (0 <= h)%Q) by (unfold h; apply Qmult_le_0_compat; assumption).
  assert (Hh1 : (h <= m)%Q) by (unfold h; nra).
  assert (Hf0 : (0 <= Qfloor h)%Z).
  { change 0%Z with (Qfloor 0). apply Qfloor_resp_le, Hh0. }
  assert (Hf1 : (Qfloor h <= Z.of_nat (List.length vals) - 1)%Z).
  { rewrite <- (Qfloor_Z (Z.of_nat (List.length vals) - 1)).
    apply Qfloor_resp_le, Hh1. }
  exists (Z.to_nat (Qfloor h)), (h - inject_Z (Qfloor h))%Q.
  assert (Hlo : Z.of_nat (Z.to_nat (Qfloor h)) = Qfloor h) by lia.
  assert (Hlen : List.length (sortQ vals) = List.length vals) by apply sortQ_length.
  split; [exact Hlo|]. split; [rewrite Hlo; reflexivity|].
  split; [lia|].
  split; [pose proof (Qfloor_le h); lra|].
  split.
  { pose proof (Qlt_floor h) as Hlt. rewrite inject_Z_plus in Hlt.
    change (inject_Z 1) with 1%Q in Hlt. lra. }
  split.
  { destruct (Nat.lt_ge_cases (S (Z.to_nat (Qfloor h))) (List.length (sortQ vals)))
      as [Hin|Hout].
    - rewrite (nth_indep (sortQ vals) _ 0%Q Hin).
      apply sorted_nth_le; [apply sortQ_sorted|lia|lia].
    - rewrite (nth_overflow (sortQ vals) _ Hout). apply Qle_refl. }
  split.
  { intros Hin. apply nth_indep. rewrite Hlen. exact Hin. }
  unfold quantile. rewrite Hlen. reflexivity.
Qed.

Lemma quantile_mono (vals : list Q) (p p' : Q) :
  vals <> [] -> (0 <= p)%Q -> (p <= p')%Q -> (p' <= 1)%Q ->
  (quantile vals p <= quantile vals p')%Q.
Proof.
  intros Hne Hp0 Hpp Hp1.
  assert (Hp1' : (p <= 1)%Q) by lra.
  assert (Hp0' : (0 <= p')%Q) by lra.
  destruct (quantile_parts vals p Hne Hp0 Hp1')
    as [lo [fr [Hlo [Hfr [Hlt [Hfr0 [Hfr1 [Hab [Hb ->]]]]]]]]].
  destruct (quantile_parts vals p' Hne Hp0' Hp1)
    as [lo' [fr' [Hlo' [Hfr' [Hlt' [Hfr0' [Hfr1' [Hab' [Hb' ->]]]]]]]]].
  set (m := inject_Z (Z.of_nat (List.length vals) - 1)) in *.
  assert (Hm : (0 <= m)%Q).
  { unfold m. change 0%Q with (inject_Z 0). rewrite <- Zle_Qle.
    destruct vals; [congruence|simpl List.length; lia]. }
  assert (Hh : (m * p <= m * p')%Q) by nra.
  assert (Hle : (lo <= lo')%nat).
  { apply Nat2Z.inj_le. rewrite Hlo, Hlo'. apply Qfloor_resp_le, Hh. }
  set (v := sortQ vals) in *.
  set (a := nth lo v 0%Q) in *. set (b := nth (S lo) v a) in *.
  set (a' := nth lo' v 0%Q) in *. set (b' := nth (S lo') v a') in *.
  destruct (Nat.eq_dec lo lo') as [E|NE].
  - assert (Ea : a' = a) by (unfold a, a'; now rewrite E).
    assert (Eb : b' = b) by (unfold b, b'; now rewrite Ea, E).
    rewrite Ea, Eb.
    assert (Hff : (fr <= fr')%Q).
    { rewrite Hfr, Hfr', E. lra. }
    assert (Hprod : (0 <= (b - a) * (fr' - fr))%Q).
    { apply Qmult_le_0_compat; lra. }
    lra.
  - assert (Hs : (S lo <= lo')%nat) by lia.
    assert (Hba' : (b <= a')%Q).
    { rewrite Hb by lia. unfold a'.
      apply sorted_nth_le; [apply sortQ_sorted|lia|].
      unfold v. rewrite sortQ_length. lia. }
    assert (H1 : (0 <= (b - a) * (1 - fr))%Q).
    { apply Qmult_le_0_compat; lra. }
    assert (H2 : (0 <= (b' - a') * fr')%Q).
    { apply Qmult_le_0_compat; lra. }
    lra.
Qed.

Lemma tertile_label_strict (rows : list Scored) (s : Z) :
  rows <> [] ->
  ((inject_Z s < tertile 1 rows)%Q -> tertile_label rows s = "Low-Value")
  /\ ((tertile 1 rows < inject_Z s)%Q -> (inject_Z s < tertile 2 rows)%Q ->
      tertile_label rows s = "Mid-Value")
  /\ ((tertile 2 rows < inject_Z s)%Q -> tertile_label rows s = "High-Value").
Proof.
  intros Hne. unfold tertile_label.
  assert (Hv : dropna (rfm_series rows) <> []).
  { rewrite rfm_series_present. destruct rows; [congruence|discriminate]. }
  assert (H12 : (tertile 1 rows <= tertile 2 rows)%Q).
  { unfold tertile. apply quantile_mono; try assumption; unfold Qle; simpl; lia. }
  split; [|split].
  - intros H. assert (E : Qle_bool (inject_Z s) (tertile 1 rows) = true).
    { apply Qle_bool_iff. lra. }
    now rewrite E.
  - intros H1 H2.
    assert (E1 : Qle_bool (inject_Z s) (tertile 1 rows) = false).
    { destruct (Qle_bool (inject_Z s) (tertile 1 rows)) eqn:E; [|reflexivity].
      apply Qle_bool_iff in E. lra. }
    assert (E2 : Qle_bool (inject_Z s) (tertile 2 rows) = true).
    { apply Qle_bool_iff. lra. }
    now rewrite E1, E2.
  - intros H.
    assert (E1 : Qle_bool (inject_Z s) (tertile 1 rows) = false).
    { destruct (Qle_bool (inject_Z s) (tertile 1 rows)) eqn:E; [|reflexivity].
      apply Qle_bool_iff in E. lra. }
    assert (E2 : Qle_bool (inject_Z s) (tertile 2 rows) = false).
    { destruct (Qle_bool (inject_Z s) (tertile 2 rows)) eqn:E; [|reflexivity].
      apply Qle_bool_iff in E. lra. }
    now rewrite E1, E2.
Qed.




(** ** A binning failure and the rest of the run *)

Lemma uniqueQ_all_equal (l : list Q) (x : Q) :
  l <> [] -> (forall y, In y l -> (y == x)%Q) -> List.length (uniqueQ l) = 1%nat.
Proof.
  induction l as [|y l IH]; intros Hne Hall; [congruence|].
  destruct l as [|z l'].
  - reflexivity.
  - assert (Hmem : memQ y (z :: l') = true).
    { simpl. apply orb_true_iff. left. apply Qeq_bool_iff.
      rewrite (Hall y), (Hall z); simpl; auto. reflexivity. }
    change (uniqueQ (y :: z :: l'))
      with (if memQ y (z :: l') then uniqueQ (z :: l') else y :: uniqueQ (z :: l')).
    rewrite Hmem. apply IH; [discriminate|].
    intros w Hw. apply Hall. right. exact Hw.
Qed.

Lemma tertile_points_in_range (p : Q) :
  In p (linspace 0 1 4) -> (0 <= p)%Q /\ (p <= 1)%Q.
Proof.
  intros H. vm_compute in H.
  destruct H as [<-|[<-|[<-|[<-|[]]]]]; split; unfold Qle; simpl; lia.
Qed.

(** The [qcut] of line 92 raises on a column whose RFM_Score is the same on
    every row, and on the empty column. *)
Lemma value_segments_constant (rows : list Scored) (c : Z) :
  (forall r, In r rows -> RFM_Score r = c) ->
  value_segments rows = Raise (ValueError "Bin edges must be unique").
Proof.
  intros Hall. destruct rows as [|r0 rows']; [reflexivity|].
  set (rows := r0 :: rows') in *.
  unfold value_segments, qcut.
  assert (Hvals : forall y, In y (dropna (rfm_series rows)) -> y = inject_Z c).
  { intros y Hy. rewrite rfm_series_present in Hy. apply in_map_iff in Hy.
    destruct Hy as [r [<- Hr]]. now rewrite (Hall r Hr). }
  assert (Hne : dropna (rfm_series rows) <> []).
  { rewrite rfm_series_present. discriminate. }
  destruct (dropna (rfm_series rows)) as [|v vals] eqn:Hv; [congruence|].
  unfold bins_to_cuts.
  rewrite (uniqueQ_all_equal _ (inject_Z c)).
  - reflexivity.
  - discriminate.
  - intros y Hy. apply in_map_iff in Hy. destruct Hy as [p [<- Hp]].
    destruct (tertile_points_in_range p Hp) as [Hp0 Hp1].
    apply quantile_constant; assumption.
Qed.

(** In particular an upload of a single row never reaches the end. *)
Lemma one_row_table_aborts (now : Z) (t : Transaction) :
  rfm_analysis now [t] = Raise (ValueError "Bin edges must be unique").
Proof.
  unfold rfm_analysis.
  pose proof (data_scored_length now [t]) as Hlen.
  destruct (data_scored now [t]) as [|r [|r' rows]]; try discriminate.
  rewrite (value_segments_constant [r] (RFM_Score r)); [reflexivity|].
  intros r' [<-|[]]. reflexivity.
Qed.

Lemma all_binnings_failed_scores (now : Z) (data : list Transaction) :
  (forall k : metric, exists e : exn,
      score_attempt (metric_series k (data_merged now data)) (metric_labels k) 5
      = Raise e) ->
  forall r, In r (data_scored now data) -> RFM_Score r = 0.
Proof.
  intros Hfail r Hin.
  assert (Hzero : forall k, metric_score k r = 0).
  { intros k. destruct (Hfail k) as [e He].
    assert (Hk : In (metric_score k r) (map (metric_score k) (data_scored now data)))
      by (apply in_map; exact Hin).
    rewrite (failed_binning_zero_column now data k e He) in Hk.
    apply (repeat_spec _ _ _ Hk). }
  unfold data_scored in Hin. apply add_scores_sum in Hin. rewrite Hin.
  rewrite (Hzero RecencyMetric : RecencyScore r = 0).
  rewrite (Hzero FrequencyMetric : FrequencyScore r = 0).
  rewrite (Hzero MonetaryMetric : MonetaryScore r = 0).
  reflexivity.
Qed.

(** *** The six rows of [skew_data], whenever they are analysed *)

Lemma days_between (now d : Z) :
  (now - d * ns_per_day) / ns_per_day = now / ns_per_day - d.
Proof.
  replace (now - d * ns_per_day) with (now + (- d) * ns_per_day) by ring.
  rewrite Z.div_add by (unfold ns_per_day; lia). ring.
Qed.

Lemma Qeq_bool_inject (a b : Z) :
  Qeq_bool (inject_Z a) (inject_Z b) = (a =? b)%Z.
Proof. unfold Qeq_bool. simpl. now rewrite !Z.mul_1_r. Qed.

Lemma sortQ_sorted_id (l : list Q) : StronglySorted Qle l -> sortQ l = l.
Proof.
  induction 1 as [|x l Hs IH Hall]; simpl; [reflexivity|].
  rewrite IH. destruct l as [|y l']; [reflexivity|]. simpl.
  assert (H : Qle_bool x y = true).
  { apply Qle_bool_iff. rewrite Forall_forall in Hall. apply Hall. left. reflexivity. }
  now rewrite H.
Qed.

Lemma uniqueQ_length_le (l : list Q) : (List.length (uniqueQ l) <= List.length l)%nat.
Proof.
  induction l as [|x l IH]; simpl; [lia|]. destruct (memQ x l); simpl; lia.
Qed.

Lemma recency_row (now : Z) (c : string) (d : Z) (o : string) (a : Q) :
  recency now (row c d o a) = Some (now / ns_per_day - d).
Proof.
  unfold recency, row, day. cbn [PurchaseDate option_map]. now rewrite days_between.
Qed.

Lemma skew_recency_series (now : Z) :
  recency_series (data_merged now skew_data)
  = map (fun d => Some (inject_Z (now / ns_per_day - d))) [99; 99; 98; 97; 96; 95].
Proof.
  rewrite data_merged_rows. unfold recency_series, int_series, skew_data.
  rewrite !map_map. cbn [map Recency metrics_of]. rewrite !recency_row. reflexivity.
Qed.

Lemma repeated_edge (e0 e1 : Q) (rest : list Q) :
  (e0 == e1)%Q ->
  (List.length (uniqueQ (e0 :: e1 :: rest)) <? List.length (e0 :: e1 :: rest))%nat = true.
Proof.
  intros H.
  assert (Hmem : memQ e0 (e1 :: rest) = true).
  { simpl. apply orb_true_iff. left. apply Qeq_bool_iff, H. }
  change (uniqueQ (e0 :: e1 :: rest))
    with (if memQ e0 (e1 :: rest) then uniqueQ (e1 :: rest)
          else e0 :: uniqueQ (e1 :: rest)).
  rewrite Hmem. apply Nat.ltb_lt.
  pose proof (uniqueQ_length_le (e1 :: rest)). simpl in *. lia.
Qed.

Lemma skew_recency_raises (now : Z) :
  score_attempt (recency_series (data_merged now skew_data)) recency_scores 5
  = Raise (ValueError "Bin edges must be unique").
Proof.
  rewrite skew_recency_series. set (k := now / ns_per_day).
  unfold score_attempt.
  assert (Hu : nunique (map (fun d => Some (inject_Z (k - d))) [99; 99; 98; 97; 96; 95]) = 5%nat).
  { unfold nunique. simpl. rewrite !Qeq_bool_inject.
    repeat match goal with
           | |- context [(?a =? ?b)%Z] =>
               first [ replace (a =? b)%Z with true by (symmetry; apply Z.eqb_eq; lia)
                     | replace (a =? b)%Z with false by (symmetry; apply Z.eqb_neq; lia) ]
           end.
    reflexivity. }
  rewrite Hu. cbn [Nat.min Nat.ltb Nat.leb].
  unfold qcut. cbn [map dropna].
  set (vals := [inject_Z (k - 99); inject_Z (k - 99); inject_Z (k - 98);
                inject_Z (k - 97); inject_Z (k - 96); inject_Z (k - 95)]).
  change (linspace 0 1 6) with [0 # 5; 1 # 5; 2 # 5; 3 # 5; 4 # 5; 5 # 5]%Q.
  cbn [map]. unfold bins_to_cuts.
  assert (Hsorted : sortQ vals = vals).
  { apply sortQ_sorted_id. unfold vals.
    repeat (constructor; [|repeat (constructor; [rewrite <- Zle_Qle; lia|])]);
      constructor. }
  assert (He : (quantile vals (0 # 5) == quantile vals (1 # 5))%Q).
  { rewrite (quantile_at vals (0 # 5) 0) by reflexivity.
    rewrite (quantile_at vals (1 # 5) 1) by reflexivity.
    rewrite Hsorted. reflexivity. }
  rewrite (repeated_edge _ _ _ He). reflexivity.
Qed.

Lemma frequency_series_any_now (now : Z) (data : list Transaction) :
  frequency_series (data_merged now data) = frequency_series (data_merged 0 data).
Proof.
  rewrite !data_merged_rows. unfold frequency_series. rewrite !map_map. reflexivity.
Qed.

Lemma monetary_series_any_now (now : Z) (data : list Transaction) :
  monetary_series (data_merged now data) = monetary_series (data_merged 0 data).
Proof.
  rewrite !data_merged_rows. unfold monetary_series. rewrite !map_map. reflexivity.
Qed.

Lemma rfm_score_column (rows : list Scored) :
  (forall r, In r rows ->
             RFM_Score r = RecencyScore r + FrequencyScore r + MonetaryScore r) ->
  map RFM_Score rows
  = map (fun x => fst x + fst (snd x) + snd (snd x))
        (combine (map RecencyScore rows)
                 (combine (map FrequencyScore rows) (map MonetaryScore rows))).
Proof.
  induction rows as [|r rows IH]; intros H; simpl; [reflexivity|].
  rewrite (H r (or_introl eq_refl)), IH; [reflexivity|].
  intros r' Hr'. apply H. right. exact Hr'.
Qed.

Lemma skew_scores (now : Z) :
  map RecencyScore (data_scored now skew_data) = [0; 0; 0; 0; 0; 0]
  /\ map FrequencyScore (data_scored now skew_data) = [1; 1; 1; 1; 1; 1]
  /\ map MonetaryScore (data_scored now skew_data) = [1; 1; 1; 1; 1; 1]
  /\ map RFM_Score (data_scored now skew_data) = [2; 2; 2; 2; 2; 2].
Proof.
  assert (HR : map RecencyScore (data_scored now skew_data) = [0; 0; 0; 0; 0; 0]).
  { exact (failed_binning_zero_column now skew_data RecencyMetric _
             (skew_recency_raises now)). }
  assert (HF : map FrequencyScore (data_scored now skew_data) = [1; 1; 1; 1; 1; 1]).
  { etransitivity; [exact (data_scored_column now skew_data FrequencyMetric)|].
    cbn [metric_series metric_labels].
    rewrite frequency_series_any_now. vm_compute. reflexivity. }
  assert (HM : map MonetaryScore (data_scored now skew_data) = [1; 1; 1; 1; 1; 1]).
  { etransitivity; [exact (data_scored_column now skew_data MonetaryMetric)|].
    cbn [metric_series metric_labels].
    rewrite monetary_series_any_now. vm_compute. reflexivity. }
  repeat split; try assumption.
  rewrite rfm_score_column.
  - rewrite HR, HF, HM. reflexivity.
  - intros r Hr. unfold data_scored in Hr. apply add_scores_sum in Hr. exact Hr.
Qed.

(** C2. The zero-filled column lets the scoring go on, but the [qcut] of
    line 92 is outside any [try].  Whenever the binning of all three metrics
    raises, RFM_Score is zero on every row and the run ends in that
    [qcut]'s exception.  And on the six rows of [skew_data], at whatever
    instant they are analysed, the binning of Recency alone raises (the
    first two of the six quantile edges coincide), RecencyScore is zero on
    every row, the other two scores and RFM_Score are computed, and the run
    ends in the same exception: Value Segment and RFM Customer Segments are
    never computed. *)
Theorem binning_failure_aborts_run :
  (forall (now : Z) (data : list Transaction),
      (forall k : metric, exists e : exn,
          score_attempt (metric_series k (data_merged now data)) (metric_labels k) 5
          = Raise e) ->
      rfm_analysis now data = Raise (ValueError "Bin edges must be unique"))
  /\ (forall now : Z,
        score_attempt (recency_series (data_merged now skew_data)) recency_scores 5
        = Raise (ValueError "Bin edges must be unique")
        /\ map RecencyScore (data_scored now skew_data) = [0; 0; 0; 0; 0; 0]
        /\ map FrequencyScore (data_scored now skew_data) = [1; 1; 1; 1; 1; 1]
        /\ map MonetaryScore (data_scored now skew_data) = [1; 1; 1; 1; 1; 1]
        /\ map RFM_Score (data_scored now skew_data) = [2; 2; 2; 2; 2; 2]
        /\ rfm_analysis now skew_data
           = Raise (ValueError "Bin edges must be unique")).
Proof.
  split.
  - intros now data Hfail. unfold rfm_analysis.
    rewrite (value_segments_constant (data_scored now data) 0
               (all_binnings_failed_scores now data Hfail)).
    reflexivity.
  - intros now. destruct (skew_scores now) as [HR [HF [HM HS]]].
    split; [apply skew_recency_raises|]. repeat (split; [assumption|]).
    unfold rfm_analysis.
    rewrite (value_segments_constant (data_scored now skew_data) 2); [reflexivity|].
    intros r Hr.
    assert (Hin : In (RFM_Score r) (map RFM_Score (data_scored now skew_data)))
      by (apply in_map; exact Hr).
    rewrite HS in Hin. simpl in Hin. intuition congruence.
Qed.

Lemma binning_failure_aborts_run_example :
  rfm_analysis skew_now blank_cells_data = Raise (ValueError "Bin edges must be unique").
Proof.
  apply (proj1 binning_failure_aborts_run).
  intros k; destruct k; eexists; vm_compute; reflexivity.
Defined.

(** * Further properties of the script *)

(** ** The scoring helper on its own *)

Lemma astype_int_none (l : list (option Z)) :
  In None l -> exists e, astype_int l = Raise e.
Proof.
  induction l as [|[z|] l IH]; simpl; intros H.
  - contradiction.
  - destruct H as [H|H]; [discriminate|].
    destruct (IH H) as [e He]. rewrite He. simpl. eauto.
  - eauto.
Qed.

Lemma cut_shape (s : series) (n : nat) (labels : list Z) (r : list (option Z)) :
  cut Z.eq_dec s n labels = Ok r ->
  exists bins, r = map (label_of bins labels false) s.
Proof.
  unfold cut.
  destruct (n <? 1)%nat; [discriminate|].
  destruct (List.length s =? 0)%nat; [discriminate|].
  destruct (dropna s); intros H; apply bins_to_cuts_ok in H;
    destruct H as [H _]; eauto.
Qed.

Lemma qcut_shape (s : series) (q : nat) (labels : list Z) (r : list (option Z)) :
  qcut Z.eq_dec s q labels = Ok r ->
  exists bins, r = map (label_of bins labels true) s.
Proof.
  unfold qcut.
  destruct (dropna s); intros H; apply bins_to_cuts_ok in H;
    destruct H as [H _]; eauto.
Qed.

Lemma score_attempt_missing (s : series) (labels : list Z) (q : nat) :
  In None s -> exists e, score_attempt s labels q = Raise e.
Proof.
  intros Hnone. unfold score_attempt. cbv zeta.
  assert (Hmap : forall bins (ls : list Z) il (r : list (option Z)),
             r = map (label_of bins ls il) s -> exists e, astype_int r = Raise e).
  { intros bins ls il r ->. apply astype_int_none.
    change None with (label_of bins ls il None). apply in_map, Hnone. }
  destruct (Nat.min q (nunique s) <? q)%nat.
  - destruct (cut Z.eq_dec s _ _) as [r|e] eqn:Hc; [|simpl; eauto].
    destruct (cut_shape _ _ _ _ Hc) as [bins Hr]. exact (Hmap bins _ false r Hr).
  - destruct (qcut Z.eq_dec s _ _) as [r|e] eqn:Hc; [|simpl; eauto].
    destruct (qcut_shape _ _ _ _ Hc) as [bins Hr]. exact (Hmap bins _ true r Hr).
Qed.

(** X1. The helper returns one score per row whatever happens, and a column
    is never a mixture: either the binning raised and every score is 0, or
    every score is one of the first [min q u] labels, [u] being the number
    of distinct values. *)
Theorem scores_one_per_row :
  forall (s : series) (score_labels : list Z) (q : nat),
    List.length (create_rfm_score s score_labels q) = List.length s
    /\ (create_rfm_score s score_labels q = repeat 0 (List.length s)
        \/ forall z, In z (create_rfm_score s score_labels q) ->
                     In z (firstn (Nat.min q (nunique s)) score_labels)).
Proof.
  intros s labels q. split; [apply create_rfm_score_length|].
  destruct (score_attempt s labels q) as [col|e] eqn:H.
  - right. rewrite (create_rfm_score_ok _ _ _ _ H).
    intros z Hz. eapply score_attempt_labels; eassumption.
  - left. eapply create_rfm_score_raise; eassumption.
Qed.

(** X2. One missing value anywhere in the series makes the binning raise,
    and the helper answers with zeros for every row. *)
Theorem missing_value_zero_fills :
  forall (s : series) (score_labels : list Z) (q : nat),
    In None s ->
    (exists e, score_attempt s score_labels q = Raise e)
    /\ create_rfm_score s score_labels q = repeat 0 (List.length s).
Proof.
  intros s labels q H.
  destruct (score_attempt_missing s labels q H) as [e He].
  split; [eauto|]. eapply create_rfm_score_raise; eassumption.
Qed.

Lemma missing_value_zero_fills_example :
  create_rfm_score [Some 3%Q; None; Some 7%Q] frequency_scores 5 = [0; 0; 0].
Proof.
  apply (missing_value_zero_fills [Some 3%Q; None; Some 7%Q] frequency_scores 5).
  simpl. auto.
Defined.

Lemma searchsorted_left_mono (bins : list Q) (x y : Q) :
  (x <= y)%Q -> (searchsorted_left bins x <= searchsorted_left bins y)%nat.
Proof.
  intros Hxy. induction bins as [|b bins IH]; simpl; [lia|].
  destruct (Qlt_bool b x) eqn:Ex; [|lia].
  apply Qlt_bool_iff in Ex.
  assert (Ey : Qlt_bool b y = true).
  { apply Qlt_bool_iff. eapply Qlt_le_trans; eassumption. }
  rewrite Ey. lia.
Qed.

Lemma bin_id_mono (bins : list Q) (il : bool) (x y : Q) (i j : nat) :
  (il = true -> (hd 0 bins <= x)%Q) ->
  (x <= y)%Q ->
  bin_id bins il x = Some i -> bin_id bins il y = Some j -> (i <= j)%nat.
Proof.
  unfold bin_id. intros Hlow Hxy Hi Hj.
  destruct (il && Qeq_bool x (hd 0%Q bins)) eqn:Ex.
  - destruct ((1 =? List.length bins)%nat || (1 =? 0)%nat); [discriminate|].
    injection Hi as <-.
    destruct (il && Qeq_bool y (hd 0%Q bins)).
    + destruct ((1 =? List.length bins)%nat || (1 =? 0)%nat); [discriminate|].
      injection Hj as <-. lia.
    + destruct (searchsorted_left bins y) as [|j'] eqn:Ej.
      * rewrite orb_true_r in Hj. discriminate.
      * destruct ((S j' =? List.length bins)%nat || (S j' =? 0)%nat); [discriminate|].
        injection Hj as <-. lia.
  - destruct (il && Qeq_bool y (hd 0%Q bins)) eqn:Ey.
    + exfalso. apply andb_true_iff in Ey. destruct Ey as [-> Ey].
      apply Qeq_bool_iff in Ey. simpl in Ex.
      apply Qeq_bool_neq in Ex. apply Ex.
      apply Qle_antisym; [rewrite <- Ey; exact Hxy|apply Hlow; reflexivity].
    + destruct ((searchsorted_left bins x =? List.length bins)%nat
                || (searchsorted_left bins x =? 0)%nat); [discriminate|].
      destruct ((searchsorted_left bins y =? List.length bins)%nat
                || (searchsorted_left bins y =? 0)%nat); [discriminate|].
      injection Hi as <-. injection Hj as <-.
      apply searchsorted_left_mono, Hxy.
Qed.

Lemma sorted_nth_error (R : Z -> Z -> Prop) (l : list Z) :
  (forall z, R z z) -> StronglySorted R l ->
  forall i j a b, (i <= j)%nat ->
                  nth_error l i = Some a -> nth_error l j = Some b -> R a b.
Proof.
  intros Hrefl. induction 1 as [|x l Hs IH Hall]; intros i j a b Hij Ha Hb.
  - destruct i; discriminate.
  - destruct i as [|i], j as [|j]; simpl in *; try lia.
    + injection Ha as <-. injection Hb as <-. apply Hrefl.
    + injection Ha as <-. rewrite Forall_forall in Hall.
      apply Hall. eapply nth_error_In; eassumption.
    + apply (IH i j a b); [lia|assumption|assumption].
Qed.

Lemma firstn_incl (n : nat) (l : list Z) (y : Z) : In y (firstn n l) -> In y l.
Proof.
  revert l; induction n as [|n IH]; intros [|x l] H; simpl in *; try contradiction.
  destruct H as [H|H]; [left; exact H|right; apply IH, H].
Qed.

Lemma sorted_firstn (R : Z -> Z -> Prop) (n : nat) (l : list Z) :
  StronglySorted R l -> StronglySorted R (firstn n l).
Proof.
  intros H. revert n. induction H as [|x l Hs IH Hall]; intros [|n]; simpl;
    try constructor.
  - apply IH.
  - rewrite Forall_forall in *. intros y Hy. apply Hall. eapply firstn_incl, Hy.
Qed.

(** The first quantile edge is the smallest value. *)
Lemma qcut_first_edge (vals : list Q) (q : nat) (x : Q) :
  In x vals -> (hd 0 (map (quantile vals) (linspace 0 1 (S q))) <= x)%Q.
Proof.
  intros Hx. unfold linspace. cbn [seq map hd].
  rewrite (quantile_at vals _ 0).
  - apply (sortQ_bounds vals x Hx).
  - simpl (Z.of_nat 0). ring.
Qed.

(** What the helper does to a series, cell by cell: one function of the
    cell gives the whole column, and along a sorted list of labels the
    function is monotone on the values of the series. *)
Lemma create_rfm_score_cells (s : series) (labels : list Z) (q : nat) :
  exists f : option Q -> Z,
    create_rfm_score s labels q = map f s
    /\ forall R : Z -> Z -> Prop,
         (forall z, R z z) -> StronglySorted R labels ->
         forall x y, In (Some x) s -> In (Some y) s -> (x <= y)%Q ->
                     R (f (Some x)) (f (Some y)).
Proof.
  destruct (score_attempt s labels q) as [col|e] eqn:H.
  2:{ exists (fun _ => 0). split.
      - rewrite (create_rfm_score_raise _ _ _ _ H).
        clear H. induction s; simpl; congruence.
      - intros R Hrefl _ x y _ _ _. apply Hrefl. }
  rewrite (create_rfm_score_ok _ _ _ _ H).
  pose proof (score_attempt_binned _ _ _ _ H) as Hb.
  set (n := Nat.min q (nunique s)) in *.
  set (L := firstn n labels) in *.
  assert (Hshape : exists bins il,
             map Some col = map (label_of bins L il) s
             /\ (il = true -> forall x, In (Some x) s -> (hd 0 bins <= x)%Q)).
  { destruct (n <? q)%nat.
    - destruct (cut_shape _ _ _ _ Hb) as [bins Hr].
      exists bins, false. split; [exact Hr|discriminate].
    - unfold qcut in Hb. destruct (dropna s) as [|v vals] eqn:Hv.
      + apply bins_to_cuts_ok in Hb. destruct Hb as [Hr _].
        eexists _, true. split; [exact Hr|].
        intros _ x Hx. apply dropna_In in Hx. rewrite Hv in Hx. contradiction.
      + apply bins_to_cuts_ok in Hb. destruct Hb as [Hr _].
        eexists _, true. split; [exact Hr|].
        intros _ x Hx. apply qcut_first_edge. rewrite <- Hv. apply dropna_In, Hx. }
  destruct Hshape as [bins [il [Hmap Hlow]]].
  exists (score_of_cell bins L il). split.
  - apply (f_equal (map (fun o : option Z => match o with Some z => z | None => 0 end)))
      in Hmap.
    rewrite !map_map in Hmap. simpl in Hmap. rewrite map_id in Hmap. exact Hmap.
  - intros R Hrefl Hsorted x y Hx Hy Hxy.
    assert (Hsome : forall v, In (Some v) s ->
               exists z i, label_of bins L il (Some v) = Some z
                           /\ bin_id bins il v = Some i
                           /\ nth_error L (i - 1) = Some z).
    { intros v Hv.
      assert (Hin : In (label_of bins L il (Some v)) (map Some col)).
      { rewrite Hmap. apply in_map, Hv. }
      apply in_map_iff in Hin. destruct Hin as [z [Hz _]].
      exists z. simpl in Hz. simpl. unfold take_label in *.
      destruct (bin_id bins il v) as [i|]; [|discriminate].
      exists i. auto. }
    destruct (Hsome x Hx) as [a [i [Ha [Hi Hia]]]].
    destruct (Hsome y Hy) as [b [j [Hb' [Hj Hjb]]]].
    unfold score_of_cell. rewrite Ha, Hb'.
    assert (Hij : (i <= j)%nat).
    { eapply bin_id_mono; try eassumption. intros E. apply Hlow; assumption. }
    eapply (sorted_nth_error R L Hrefl (sorted_firstn R n labels Hsorted)
              (i - 1) (j - 1)); try eassumption. lia.
Qed.

(** ** The three score columns of a table *)

Lemma metric_series_cells (k : metric) (rows : list Metrics) :
  metric_series k rows = map (metric_cell k) rows.
Proof.
  destruct k; simpl;
    unfold recency_series, frequency_series, monetary_series, int_series;
    rewrite ?map_map; reflexivity.
Qed.

Lemma data_scored_cell_In (now : Z) (data : list Transaction) (k : metric) (r : Scored) :
  In r (data_scored now data) ->
  In (metric_cell k (metrics r)) (metric_series k (data_merged now data)).
Proof.
  intros Hr. rewrite metric_series_cells, <- data_scored_metrics, map_map.
  apply (in_map (fun r => metric_cell k (metrics r))), Hr.
Qed.

Lemma data_scored_cells (now : Z) (data : list Transaction) (k : metric) :
  exists f : option Q -> Z,
    (forall r, In r (data_scored now data) ->
               metric_score k r = f (metric_cell k (metrics r)))
    /\ forall R : Z -> Z -> Prop,
         (forall z, R z z) -> StronglySorted R (metric_labels k) ->
         forall r1 r2 x y,
           In r1 (data_scored now data) -> In r2 (data_scored now data) ->
           metric_cell k (metrics r1) = Some x ->
           metric_cell k (metrics r2) = Some y ->
           (x <= y)%Q -> R (metric_score k r1) (metric_score k r2).
Proof.
  destruct (create_rfm_score_cells (metric_series k (data_merged now data))
              (metric_labels k) 5) as [f [Hcol Hmono]].
  assert (Hrow : forall r, In r (data_scored now data) ->
                           metric_score k r = f (metric_cell k (metrics r))).
  { apply map_ext_in_iff.
    rewrite data_scored_column, Hcol, metric_series_cells.
    rewrite <- data_scored_metrics, !map_map. reflexivity. }
  exists f. split; [exact Hrow|].
  intros R Hrefl Hsorted r1 r2 x y H1 H2 Hx Hy Hxy.
  rewrite (Hrow r1 H1), (Hrow r2 H2), Hx, Hy.
  apply Hmono; try assumption.
  - rewrite <- Hx. apply data_scored_cell_In, H1.
  - rewrite <- Hy. apply data_scored_cell_In, H2.
Qed.

(** X3. Scores follow the metric: of two rows of a table, the one with the
    larger Frequency never has the lower FrequencyScore, the one with the
    larger MonetaryValue never has the lower MonetaryScore, and the one with
    the smaller Recency (the more recent purchase) never has the lower
    RecencyScore; this holds whether or not a binning raised. *)
Theorem scores_follow_the_metric :
  forall (now : Z) (data : list Transaction) (r1 r2 : Scored),
    In r1 (data_scored now data) ->
    In r2 (data_scored now data) ->
    (forall a b : Z,
        Frequency (metrics r1) = Some a -> Frequency (metrics r2) = Some b ->
        a <= b -> FrequencyScore r1 <= FrequencyScore r2)
    /\ (forall a b : Q,
          MonetaryValue (metrics r1) = Some a -> MonetaryValue (metrics r2) = Some b ->
          (a <= b)%Q -> MonetaryScore r1 <= MonetaryScore r2)
    /\ (forall a b : Z,
          Recency (metrics r1) = Some a -> Recency (metrics r2) = Some b ->
          a <= b -> RecencyScore r2 <= RecencyScore r1).
Proof.
  intros now data r1 r2 H1 H2.
  assert (Hup : StronglySorted Z.le [1; 2; 3; 4; 5]).
  { repeat (constructor; [|repeat (constructor; [lia|])]); constructor. }
  assert (Hdown : StronglySorted (fun a b => b <= a) [5; 4; 3; 2; 1]).
  { repeat (constructor; [|repeat (constructor; [lia|])]); constructor. }
  split; [|split].
  - intros a b Ha Hb Hab.
    destruct (data_scored_cells now data FrequencyMetric) as [f [_ Hmono]].
    apply (Hmono Z.le Z.le_refl Hup r1 r2 (inject_Z a) (inject_Z b)); try assumption.
    + simpl. now rewrite Ha.
    + simpl. now rewrite Hb.
    + now rewrite <- Zle_Qle.
  - intros a b Ha Hb Hab.
    destruct (data_scored_cells now data MonetaryMetric) as [f [_ Hmono]].
    apply (Hmono Z.le Z.le_refl Hup r1 r2 a b); assumption.
  - intros a b Ha Hb Hab.
    destruct (data_scored_cells now data RecencyMetric) as [f [_ Hmono]].
    apply (Hmono (fun a b => b <= a) Z.le_refl Hdown r1 r2 (inject_Z a) (inject_Z b));
      try assumption.
    + simpl. now rewrite Ha.
    + simpl. now rewrite Hb.
    + now rewrite <- Zle_Qle.
Qed.

Lemma scores_follow_the_metric_example :
  let r1 := nth 0 (data_scored skew_now mixed_data) blank_scored in
  let r2 := nth 2 (data_scored skew_now mixed_data) blank_scored in
  FrequencyScore r1 <= FrequencyScore r2
  /\ MonetaryScore r1 <= MonetaryScore r2
  /\ RecencyScore r1 <= RecencyScore r2.
Proof.
  intros r1 r2.
  assert (H1 : In r1 (data_scored skew_now mixed_data)).
  { apply nth_In. rewrite data_scored_length. simpl. lia. }
  assert (H2 : In r2 (data_scored skew_now mixed_data)).
  { apply nth_In. rewrite data_scored_length. simpl. lia. }
  destruct (scores_follow_the_metric skew_now mixed_data r1 r2 H1 H2) as [HF [HM _]].
  destruct (scores_follow_the_metric skew_now mixed_data r2 r1 H2 H1) as [_ [_ HR]].
  split; [|split].
  - apply (HF 1 2); [vm_compute; reflexivity|vm_compute; reflexivity|lia].
  - apply (HM 10.00%Q (20.00 + 30.00)%Q);
      [vm_compute; reflexivity|vm_compute; reflexivity|vm_compute; discriminate].
  - apply (HR 1 3); [vm_compute; reflexivity|vm_compute; reflexivity|lia].
Defined.

Lemma data_scored_metrics_of (now : Z) (data : list Transaction) (r : Scored) :
  In r (data_scored now data) ->
  In (txn (metrics r)) data /\ metrics r = metrics_of now data (txn (metrics r)).
Proof.
  intros Hr. apply data_merged_In. rewrite <- data_scored_metrics.
  apply in_map, Hr.
Qed.

(** X4. Rows of the same customer share FrequencyScore and MonetaryScore,
    and rows with the same PurchaseDate share RecencyScore. *)
Theorem customer_rows_share_scores :
  forall (now : Z) (data : list Transaction) (r1 r2 : Scored),
    In r1 (data_scored now data) ->
    In r2 (data_scored now data) ->
    (CustomerID (txn (metrics r1)) = CustomerID (txn (metrics r2)) ->
     FrequencyScore r1 = FrequencyScore r2 /\ MonetaryScore r1 = MonetaryScore r2)
    /\ (PurchaseDate (txn (metrics r1)) = PurchaseDate (txn (metrics r2)) ->
        RecencyScore r1 = RecencyScore r2).
Proof.
  intros now data r1 r2 H1 H2.
  destruct (data_scored_metrics_of now data r1 H1) as [_ E1].
  destruct (data_scored_metrics_of now data r2 H2) as [_ E2].
  split.
  - intros Hc.
    destruct (data_scored_cells now data FrequencyMetric) as [f [Hf _]].
    destruct (data_scored_cells now data MonetaryMetric) as [g [Hg _]].
    pose proof (Hf r1 H1) as F1. pose proof (Hf r2 H2) as F2.
    pose proof (Hg r1 H1) as G1. pose proof (Hg r2 H2) as G2.
    simpl in F1, F2, G1, G2.
    rewrite F1, F2, G1, G2, E1, E2. simpl. rewrite Hc. auto.
  - intros Hd.
    destruct (data_scored_cells now data RecencyMetric) as [f [Hf _]].
    pose proof (Hf r1 H1) as F1. pose proof (Hf r2 H2) as F2.
    simpl in F1, F2.
    rewrite F1, F2, E1, E2. simpl. unfold recency. rewrite Hd. reflexivity.
Qed.

Lemma customer_rows_share_scores_example :
  let r1 := nth 1 (data_scored skew_now mixed_data) blank_scored in
  let r2 := nth 2 (data_scored skew_now mixed_data) blank_scored in
  FrequencyScore r1 = FrequencyScore r2 /\ MonetaryScore r1 = MonetaryScore r2.
Proof.
  intros r1 r2.
  assert (H1 : In r1 (data_scored skew_now mixed_data)).
  { apply nth_In. rewrite data_scored_length. simpl. lia. }
  assert (H2 : In r2 (data_scored skew_now mixed_data)).
  { apply nth_In. rewrite data_scored_length. simpl. lia. }
  apply (proj1 (customer_rows_share_scores skew_now mixed_data r1 r2 H1 H2)).
  vm_compute. reflexivity.
Defined.

Lemma metric_labels_range (k : metric) (z : Z) :
  In z (metric_labels k) -> 1 <= z <= 5.
Proof.
  destruct k; simpl; intros H;
    repeat (destruct H as [H|H]; [lia|]); contradiction.
Qed.

Lemma data_scored_score_In (now : Z) (data : list Transaction) (k : metric) (r : Scored) :
  In r (data_scored now data) ->
  In (metric_score k r)
     (create_rfm_score (metric_series k (data_merged now data)) (metric_labels k) 5).
Proof.
  intros Hr. rewrite <- data_scored_column. apply in_map, Hr.
Qed.

Lemma metric_score_range (now : Z) (data : list Transaction) (k : metric) (r : Scored) :
  In r (data_scored now data) ->
  0 <= metric_score k r <= 5
  /\ (forall col,
         score_attempt (metric_series k (data_merged now data)) (metric_labels k) 5
         = Ok col ->
         1 <= metric_score k r <= 5).
Proof.
  intros Hr. pose proof (data_scored_score_In now data k r Hr) as Hin.
  destruct (score_attempt (metric_series k (data_merged now data)) (metric_labels k) 5)
    as [col|e] eqn:H.
  - rewrite (create_rfm_score_ok _ _ _ _ H) in Hin.
    assert (Hz : 1 <= metric_score k r <= 5).
    { apply (metric_labels_range k). eapply firstn_incl.
      eapply score_attempt_labels; eassumption. }
    split; [lia|]. intros _ _. exact Hz.
  - rewrite (create_rfm_score_raise _ _ _ _ H) in Hin.
    apply repeat_spec in Hin. split; [lia|]. discriminate.
Qed.

(** X5. On every row of every table each of the three scores lies in 0..5
    and RFM_Score in 0..15; a score whose binning did not raise lies in
    1..5, so RFM_Score lies in 3..15 when none of the three binnings
    raised. *)
Theorem scores_within_bounds :
  forall (now : Z) (data : list Transaction) (r : Scored),
    In r (data_scored now data) ->
    0 <= RecencyScore r <= 5
    /\ 0 <= FrequencyScore r <= 5
    /\ 0 <= MonetaryScore r <= 5
    /\ 0 <= RFM_Score r <= 15
    /\ (forall (k : metric) (col : list Z),
          score_attempt (metric_series k (data_merged now data)) (metric_labels k) 5
          = Ok col ->
          1 <= metric_score k r <= 5)
    /\ ((forall k : metric, exists col : list Z,
            score_attempt (metric_series k (data_merged now data)) (metric_labels k) 5
            = Ok col) ->
        3 <= RFM_Score r <= 15).
Proof.
  intros now data r Hr.
  pose proof (proj1 (metric_score_range now data RecencyMetric r Hr)) as HR.
  pose proof (proj1 (metric_score_range now data FrequencyMetric r Hr)) as HF.
  pose proof (proj1 (metric_score_range now data MonetaryMetric r Hr)) as HM.
  simpl in HR, HF, HM.
  assert (Hsum : RFM_Score r = RecencyScore r + FrequencyScore r + MonetaryScore r).
  { unfold data_scored in Hr. apply add_scores_sum in Hr. exact Hr. }
  repeat (split; [lia|]). split.
  - intros k col. apply (proj2 (metric_score_range now data k r Hr)).
  - intros Hall.
    destruct (Hall RecencyMetric) as [c1 E1].
    destruct (Hall FrequencyMetric) as [c2 E2].
    destruct (Hall MonetaryMetric) as [c3 E3].
    pose proof (proj2 (metric_score_range now data RecencyMetric r Hr) c1 E1) as R1.
    pose proof (proj2 (metric_score_range now data FrequencyMetric r Hr) c2 E2) as F1.
    pose proof (proj2 (metric_score_range now data MonetaryMetric r Hr) c3 E3) as M1.
    simpl in R1, F1, M1. lia.
Qed.

Lemma scores_within_bounds_example :
  let r := nth 0 (data_scored skew_now mixed_data) blank_scored in
  0 <= RFM_Score r <= 15 /\ 3 <= RFM_Score r <= 15.
Proof.
  intros r.
  assert (Hr : In r (data_scored skew_now mixed_data)).
  { apply nth_In. rewrite data_scored_length. simpl. lia. }
  destruct (scores_within_bounds skew_now mixed_data r Hr)
    as [_ [_ [_ [H015 [_ H315]]]]].
  split; [exact H015|]. apply H315.
  intros k; destruct k; eexists; vm_compute; reflexivity.
Defined.

(** X6. A blank cell costs the whole table a score column: if any row has
    no CustomerID, FrequencyScore and MonetaryScore are 0 on every row, and
    if any row has no PurchaseDate, RecencyScore is 0 on every row. *)
Theorem blank_cell_zeroes_scores :
  forall (now : Z) (data : list Transaction),
    ((exists t, In t data /\ CustomerID t = None) ->
     forall r, In r (data_scored now data) ->
               FrequencyScore r = 0 /\ MonetaryScore r = 0)
    /\ ((exists t, In t data /\ PurchaseDate t = None) ->
        forall r, In r (data_scored now data) -> RecencyScore r = 0).
Proof.
  intros now data.
  assert (Hzero : forall k,
             (exists t, In t data /\ metric_cell k (metrics_of now data t) = None) ->
             forall r, In r (data_scored now data) -> metric_score k r = 0).
  { intros k [t [Ht Hcell]] r Hr.
    assert (Hnone : In None (metric_series k (data_merged now data))).
    { rewrite metric_series_cells, data_merged_rows, map_map, <- Hcell.
      apply (in_map (fun t => metric_cell k (metrics_of now data t))), Ht. }
    destruct (score_attempt_missing _ (metric_labels k) 5 Hnone) as [e He].
    assert (Hin : In (metric_score k r) (map (metric_score k) (data_scored now data)))
      by (apply in_map; exact Hr).
    rewrite (failed_binning_zero_column now data k e He) in Hin.
    apply (repeat_spec _ _ _ Hin). }
  split.
  - intros [t [Ht Hc]] r Hr. split.
    + apply (Hzero FrequencyMetric); [|exact Hr].
      exists t. split; [exact Ht|]. simpl. now rewrite Hc.
    + apply (Hzero MonetaryMetric); [|exact Hr].
      exists t. split; [exact Ht|]. simpl. now rewrite Hc.
  - intros [t [Ht Hd]] r Hr.
    apply (Hzero RecencyMetric); [|exact Hr].
    exists t. split; [exact Ht|]. simpl. unfold recency. now rewrite Hd.
Qed.

Lemma blank_cell_zeroes_scores_example :
  let r := nth 0 (data_scored skew_now blank_cells_data) blank_scored in
  FrequencyScore r = 0 /\ MonetaryScore r = 0 /\ RecencyScore r = 0.
Proof.
  intros r.
  assert (Hr : In r (data_scored skew_now blank_cells_data)).
  { apply nth_In. rewrite data_scored_length. simpl. lia. }
  destruct (blank_cell_zeroes_scores skew_now blank_cells_data) as [Hc Hd].
  assert (Hblank : In (mkTransaction None None (Some "O002") (Some 30.00%Q))
                      blank_cells_data) by (right; left; reflexivity).
  destruct (Hc (ex_intro _ _ (conj Hblank eq_refl)) r Hr) as [HF HM].
  pose proof (Hd (ex_intro _ _ (conj Hblank eq_refl)) r Hr) as HR.
  split; [exact HF|]. split; [exact HM|exact HR].
Defined.

(** ** When line 92 raises *)

Lemma four_edges_unique (e0 e1 e2 e3 : Q) :
  (e0 <= e1)%Q -> (e1 <= e2)%Q -> (e2 <= e3)%Q ->
  ((List.length (uniqueQ [e0; e1; e2; e3]) <? 4)%nat = false
   <-> (e0 < e1)%Q /\ (e1 < e2)%Q /\ (e2 < e3)%Q).
Proof.
  intros H01 H12 H23. unfold uniqueQ, memQ, existsb.
  destruct (Qeq_bool e0 e1) eqn:E01; destruct (Qeq_bool e0 e2) eqn:E02;
    destruct (Qeq_bool e0 e3) eqn:E03; destruct (Qeq_bool e1 e2) eqn:E12;
    destruct (Qeq_bool e1 e3) eqn:E13; destruct (Qeq_bool e2 e3) eqn:E23;
    simpl;
    repeat match goal with
           | H : Qeq_bool _ _ = true |- _ => apply Qeq_bool_iff in H
           | H : Qeq_bool _ _ = false |- _ => apply Qeq_bool_neq in H
           end;
    (split; [intros Hu; try discriminate Hu|intros [A [B C]]; try reflexivity]);
    try (exfalso; lra);
    try (repeat split; apply Qle_lteq in H01; apply Qle_lteq in H12;
         apply Qle_lteq in H23; intuition (try lra; try contradiction)).
Qed.

Lemma tertile_edges_ordered (rows : list Scored) :
  rows <> [] ->
  (lowest_edge rows <= tertile 1 rows)%Q
  /\ (tertile 1 rows <= tertile 2 rows)%Q
  /\ (tertile 2 rows <= highest_edge rows)%Q.
Proof.
  intros Hne.
  assert (Hv : dropna (rfm_series rows) <> []).
  { rewrite rfm_series_present. destruct rows; [congruence|discriminate]. }
  unfold lowest_edge, highest_edge, tertile.
  repeat split; apply quantile_mono; try assumption; unfold Qle; simpl; lia.
Qed.

Lemma edges_increase_iff (rows : list Scored) :
  rows <> [] ->
  ((List.length (uniqueQ (tertile_edges rows)) <? 4)%nat = false
   <-> (lowest_edge rows < tertile 1 rows)%Q
       /\ (tertile 1 rows < tertile 2 rows)%Q
       /\ (tertile 2 rows < highest_edge rows)%Q).
Proof.
  intros Hne. rewrite tertile_edges_eq.
  destruct (tertile_edges_ordered rows Hne) as [H01 [H12 H23]].
  apply four_edges_unique; assumption.
Qed.

Lemma value_segments_pass (rows : list Scored) :
  rows <> [] ->
  (List.length (uniqueQ (tertile_edges rows)) <? 4)%nat = false ->
  value_segments rows = Ok (map (value_segment_of rows) rows).
Proof.
  intros Hne Hu.
  assert (Hok : exists vs, value_segments rows = Ok vs).
  { unfold value_segments, qcut.
    assert (Hv : dropna (rfm_series rows) <> []).
    { rewrite rfm_series_present. destruct rows; [congruence|discriminate]. }
    unfold tertile_edges in Hu.
    destruct (dropna (rfm_series rows)) as [|v vals]; [congruence|].
    unfold bins_to_cuts. rewrite length_map.
    change (List.length (linspace 0 1 4)) with 4%nat. rewrite Hu.
    simpl. eexists. reflexivity. }
  destruct Hok as [vs Hvs]. rewrite Hvs.
  destruct (value_segments_ok rows vs Hvs) as [_ [-> _]]. reflexivity.
Qed.



(** X8. Line 92 raises, and the run ends there, on every table whose rows
    all got the same RFM_Score; in particular on every upload of no row or
    of a single row. *)
Theorem uniform_scores_abort :
  forall (now : Z) (data : list Transaction),
    ((exists c, forall r, In r (data_scored now data) -> RFM_Score r = c) ->
     rfm_analysis now data = Raise (ValueError "Bin edges must be unique"))
    /\ ((List.length data <= 1)%nat ->
        rfm_analysis now data = Raise (ValueError "Bin edges must be unique")).
Proof.
  intros now data.
  assert (Hu : (exists c, forall r, In r (data_scored now data) -> RFM_Score r = c) ->
               rfm_analysis now data = Raise (ValueError "Bin edges must be unique")).
  { intros [c Hc]. unfold rfm_analysis.
    rewrite (value_segments_constant (data_scored now data) c Hc). reflexivity. }
  split; [exact Hu|].
  intros Hlen. apply Hu.
  pose proof (data_scored_length now data) as Hl.
  destruct (data_scored now data) as [|r [|r' rows]].
  - exists 0. intros r [].
  - exists (RFM_Score r). intros r' [<-|[]]. reflexivity.
  - simpl in Hl. lia.
Qed.

Lemma uniform_scores_abort_example :
  rfm_analysis skew_now [row "C001" 99 "O001" 10.00%Q]
  = Raise (ValueError "Bin edges must be unique").
Proof.
  apply (proj2 (uniform_scores_abort skew_now [row "C001" 99 "O001" 10.00%Q])).
  simpl. lia.
Defined.

(** ** The rows at both ends of the tertile split *)

Lemma edges_increase (rows : list Scored) (vs : list (option string)) :
  value_segments rows = Ok vs ->
  rows <> []
  /\ (lowest_edge rows < tertile 1 rows)%Q
  /\ (tertile 1 rows < tertile 2 rows)%Q
  /\ (tertile 2 rows < highest_edge rows)%Q.
Proof.
  intros H. apply value_segments_ok in H. destruct H as [Hne [_ Hu]].
  split; [exact Hne|]. apply edges_increase_iff; assumption.
Qed.

Lemma row_at_rank (rows : list Scored) (i : nat) :
  (i < List.length rows)%nat ->
  exists r, In r rows
            /\ inject_Z (RFM_Score r) = nth i (sortQ (dropna (rfm_series rows))) 0%Q.
Proof.
  intros Hi.
  assert (Hin : In (nth i (sortQ (dropna (rfm_series rows))) 0%Q)
                   (dropna (rfm_series rows))).
  { apply (Permutation_in _ (sortQ_perm _)), nth_In.
    rewrite sortQ_length, rfm_series_present, length_map. exact Hi. }
  rewrite rfm_series_present in Hin at 2. apply in_map_iff in Hin.
  destruct Hin as [r [Hr Hin]]. exists r. auto.
Qed.

(** X9. On every run that reaches the end the two outer segments are
    occupied: a row with the smallest RFM_Score is Low-Value and a row with
    the largest RFM_Score is High-Value. *)
Theorem low_and_high_are_never_empty :
  forall (now : Z) (data : list Transaction) (out : list Segmented),
    rfm_analysis now data = Ok out ->
    (exists r, In r out
               /\ Value_Segment r = Some "Low-Value"
               /\ forall r', In r' out -> RFM_Score (scored r) <= RFM_Score (scored r'))
    /\ (exists r, In r out
                  /\ Value_Segment r = Some "High-Value"
                  /\ forall r', In r' out -> RFM_Score (scored r') <= RFM_Score (scored r)).
Proof.
  intros now data out H.
  destruct (rfm_analysis_ok now data out H) as [Hvs Hout].
  set (rows := data_scored now data) in *.
  destruct (edges_increase rows _ Hvs) as [Hne [H01 [H12 H23]]].
  set (vals := dropna (rfm_series rows)).
  assert (Hlen : (1 <= List.length rows)%nat).
  { destruct rows; [congruence|simpl; lia]. }
  assert (Hvne : vals <> []).
  { unfold vals. rewrite rfm_series_present. destruct rows; [congruence|discriminate]. }
  assert (Hvlen : List.length vals = List.length rows).
  { unfold vals. rewrite rfm_series_present. apply length_map. }
  assert (Hbounds : forall r', In r' rows ->
             (nth 0 (sortQ vals) 0 <= inject_Z (RFM_Score r'))%Q
             /\ (inject_Z (RFM_Score r') <= nth (List.length vals - 1) (sortQ vals) 0)%Q).
  { intros r' Hr'. apply sortQ_bounds. unfold vals. rewrite rfm_series_present.
    apply (in_map (fun r => inject_Z (RFM_Score r))), Hr'. }
  assert (Hrow : forall r, In r rows ->
             In (mkSegmented r (value_segment_of rows r) (segment_of (RFM_Score r))) out).
  { intros r Hr. rewrite Hout.
    apply (in_map (fun r => mkSegmented r (value_segment_of rows r)
                                        (segment_of (RFM_Score r)))), Hr. }
  assert (Hscored : forall r', In r' out -> In (scored r') rows).
  { intros r' Hr'. rewrite Hout in Hr'. apply in_map_iff in Hr'.
    destruct Hr' as [r [<- Hr]]. exact Hr. }
  split.
  - destruct (row_at_rank rows 0) as [r [Hr Hv]]; [lia|].
    exists (mkSegmented r (value_segment_of rows r) (segment_of (RFM_Score r))).
    split; [apply Hrow, Hr|]. split.
    + simpl. rewrite (value_segment_tertile rows r Hr). unfold tertile_label.
      assert (Hle : Qle_bool (inject_Z (RFM_Score r)) (tertile 1 rows) = true).
      { apply Qle_bool_iff. rewrite Hv. fold vals.
        rewrite <- (quantile_min vals). apply Qlt_le_weak. exact H01. }
      rewrite Hle. reflexivity.
    + intros r' Hr'. simpl. rewrite Zle_Qle, Hv. fold vals.
      apply Hbounds, Hscored, Hr'.
  - destruct (row_at_rank rows (List.length rows - 1)) as [r [Hr Hv]]; [lia|].
    exists (mkSegmented r (value_segment_of rows r) (segment_of (RFM_Score r))).
    split; [apply Hrow, Hr|]. split.
    + simpl. rewrite (value_segment_tertile rows r Hr). unfold tertile_label.
      assert (Htop : (inject_Z (RFM_Score r) == highest_edge rows)%Q).
      { rewrite Hv. fold vals. unfold highest_edge. fold vals.
        rewrite (quantile_max vals Hvne), Hvlen. reflexivity. }
      assert (Hl1 : Qle_bool (inject_Z (RFM_Score r)) (tertile 1 rows) = false).
      { destruct (Qle_bool (inject_Z (RFM_Score r)) (tertile 1 rows)) eqn:E;
          [|reflexivity].
        apply Qle_bool_iff in E. rewrite Htop in E. lra. }
      assert (Hl2 : Qle_bool (inject_Z (RFM_Score r)) (tertile 2 rows) = false).
      { destruct (Qle_bool (inject_Z (RFM_Score r)) (tertile 2 rows)) eqn:E;
          [|reflexivity].
        apply Qle_bool_iff in E. rewrite Htop in E. lra. }
      rewrite Hl1, Hl2. reflexivity.
    + intros r' Hr'. simpl. rewrite Zle_Qle, Hv. fold vals. rewrite <- Hvlen.
      apply Hbounds, Hscored, Hr'.
Qed.

Lemma low_and_high_are_never_empty_example :
  exists (out : list Segmented) (lo hi : Segmented),
    rfm_analysis skew_now mixed_data = Ok out
    /\ In lo out /\ Value_Segment lo = Some "Low-Value"
    /\ In hi out /\ Value_Segment hi = Some "High-Value".
Proof.
  destruct (rfm_analysis skew_now mixed_data) as [out|e] eqn:H;
    [|exfalso; vm_compute in H; discriminate].
  destruct (low_and_high_are_never_empty skew_now mixed_data out H)
    as [[lo [Hlo [Hl _]]] [hi [Hhi [Hh _]]]].
  exists out, lo, hi. repeat split; assumption.
Defined.

(** ** The Champions rows (line 146) *)

Lemma champion_label (s : Z) :
  String.eqb (segment_of s) "Champions" = (9 <=? s)%Z.
Proof.
  unfold segment_of, relabel, segment_rules. simpl.
  destruct (Z.leb_spec 9 s), (Z.leb_spec 6 s), (Z.leb_spec 5 s), (Z.leb_spec 4 s),
    (Z.ltb_spec s 9), (Z.ltb_spec s 6), (Z.ltb_spec s 5), (Z.ltb_spec s 4);
    simpl; try reflexivity; lia.
Qed.

(** X10. The Champions subset of line 146 consists of exactly the rows whose
    RFM_Score is at least 9, in the order of the table. *)
Theorem champions_are_scores_from_nine :
  forall (now : Z) (data : list Transaction) (out : list Segmented),
    rfm_analysis now data = Ok out ->
    champions_segment out = filter (fun r => (9 <=? RFM_Score (scored r))%Z) out
    /\ (forall r, In r (champions_segment out) <-> In r out /\ 9 <= RFM_Score (scored r)).
Proof.
  intros now data out H.
  assert (Heq : champions_segment out
                = filter (fun r => (9 <=? RFM_Score (scored r))%Z) out).
  { unfold champions_segment. apply filter_ext_in. intros r Hr.
    rewrite (rfm_analysis_segment now data out r H Hr). apply champion_label. }
  split; [exact Heq|].
  intros r. rewrite Heq, filter_In, Z.leb_le. reflexivity.
Qed.

Lemma champions_are_scores_from_nine_example :
  exists out : list Segmented,
    rfm_analysis skew_now mixed_data = Ok out
    /\ map (fun r => RFM_Score (scored r)) out = [5; 8; 9]
    /\ map (fun r => RFM_Score (scored r)) (champions_segment out) = [9].
Proof.
  destruct (rfm_analysis skew_now mixed_data) as [out|e] eqn:H;
    [|exfalso; vm_compute in H; discriminate].
  exists out. split; [reflexivity|].
  rewrite (proj1 (champions_are_scores_from_nine skew_now mixed_data out H)).
  vm_compute in H. injection H as <-. split; reflexivity.
Defined.

(** ** Recency (line 52) *)

(** X11. Recency counts whole days, rounded down: it is the integer [r] with
    [r] days <= now - PurchaseDate < [r + 1] days, so it is negative exactly
    for a purchase dated after the instant of the analysis; a row without
    PurchaseDate has no Recency. *)
Theorem recency_counts_whole_days :
  forall (now : Z) (data : list Transaction) (m : Metrics),
    In m (data_merged now data) ->
    match PurchaseDate (txn m) with
    | Some d =>
        exists r, Recency m = Some r
                  /\ r * ns_per_day <= now - d < (r + 1) * ns_per_day
                  /\ (r < 0 <-> now < d)
    | None => Recency m = None
    end.
Proof.
  intros now data m Hin. apply data_merged_In in Hin. destruct Hin as [_ Hm].
  rewrite Hm. simpl. unfold recency.
  destruct (PurchaseDate (txn m)) as [d|]; simpl; [|reflexivity].
  exists ((now - d) / ns_per_day). split; [reflexivity|].
  unfold ns_per_day.
  pose proof (Z.div_mod (now - d) 86400000000000) as Hdm.
  pose proof (Z.mod_pos_bound (now - d) 86400000000000) as Hb.
  split; [lia|]. split; intros; lia.
Qed.

Lemma recency_counts_whole_days_example :
  let m := metrics_of skew_now mixed_data (row "A" 97 "O001" 10.00%Q) in
  exists r, Recency m = Some r
            /\ r * ns_per_day <= skew_now - 97 * ns_per_day < (r + 1) * ns_per_day
            /\ (r < 0 <-> skew_now < 97 * ns_per_day).
Proof.
  intros m.
  assert (Hin : In m (data_merged skew_now mixed_data)).
  { vm_compute. left. reflexivity. }
  exact (recency_counts_whole_days skew_now mixed_data m Hin).
Defined.

(** ** A metric that takes a single value *)

Lemma widen_pos (m : Q) : (0 < widen m)%Q.
Proof.
  unfold widen. destruct (Qeq_bool m 0) eqn:E.
  - reflexivity.
  - apply Qeq_bool_neq in E.
    assert (H : (0 < Qabs m)%Q).
    { destruct (Qlt_le_dec m 0) as [Hneg|Hpos].
      - rewrite (Qabs_neg m) by lra. lra.
      - rewrite (Qabs_pos m Hpos). apply Qle_lteq in Hpos.
        destruct Hpos as [Hpos|Hz]; [exact Hpos|]. exfalso. apply E. now symmetry. }
    lra.
Qed.

Lemma minQ_constant (v0 : Q) (rest : list Q) :
  (forall y, In y rest -> (y == v0)%Q) -> minQ v0 rest = v0.
Proof.
  unfold minQ. induction rest as [|y rest IH]; intros H; simpl; [reflexivity|].
  assert (E : Qlt_bool y v0 = false).
  { apply Qlt_bool_false. rewrite (H y) by (left; reflexivity). apply Qle_refl. }
  rewrite E. apply IH. intros z Hz. apply H. right. exact Hz.
Qed.

Lemma maxQ_constant (v0 : Q) (rest : list Q) :
  (forall y, In y rest -> (y == v0)%Q) -> maxQ v0 rest = v0.
Proof.
  unfold maxQ. induction rest as [|y rest IH]; intros H; simpl; [reflexivity|].
  assert (E : Qlt_bool v0 y = false).
  { apply Qlt_bool_false. rewrite (H y) by (left; reflexivity). apply Qle_refl. }
  rewrite E. apply IH. intros z Hz. apply H. right. exact Hz.
Qed.

Lemma constant_bin (v0 y : Q) :
  (y == v0)%Q -> bin_id (nbins_to_bins v0 v0 1) false y = Some 1%nat.
Proof.
  intros Hy. unfold nbins_to_bins. rewrite Qeq_bool_refl.
  unfold linspace. cbn [seq map]. unfold bin_id. cbn [andb searchsorted_left List.length].
  pose proof (widen_pos v0) as Hw.
  set (w := widen v0) in *.
  assert (H0 : Qlt_bool (v0 - w + inject_Z (Z.of_nat 0)
                           * ((v0 + w - (v0 - w)) / inject_Z (Z.of_nat 2 - 1))) y = true).
  { apply Qlt_bool_iff. rewrite Hy. simpl (Z.of_nat 0). simpl (Z.of_nat 2 - 1)%Z.
    setoid_replace ((v0 + w - (v0 - w)) / inject_Z 1)%Q with (2 * w)%Q by field.
    change (inject_Z 0) with 0%Q. lra. }
  assert (H1 : Qlt_bool (v0 - w + inject_Z (Z.of_nat 1)
                           * ((v0 + w - (v0 - w)) / inject_Z (Z.of_nat 2 - 1))) y = false).
  { apply Qlt_bool_false. rewrite Hy. simpl (Z.of_nat 1). simpl (Z.of_nat 2 - 1)%Z.
    setoid_replace ((v0 + w - (v0 - w)) / inject_Z 1)%Q with (2 * w)%Q by field.
    change (inject_Z 1) with 1%Q. lra. }
  rewrite H0, H1. reflexivity.
Qed.

Lemma astype_int_constant (s : series) (f : option Q -> option Z) (l0 : Z) :
  (forall c, In c s -> f c = Some l0) ->
  astype_int (map f s) = Ok (repeat l0 (List.length s)).
Proof.
  induction s as [|c s IH]; intros H; simpl; [reflexivity|].
  rewrite (H c) by (left; reflexivity). rewrite IH; [reflexivity|].
  intros c' Hc'. apply H. right. exact Hc'.
Qed.

Lemma constant_series_attempt (s : series) (x : Q) (l0 : Z) (labels : list Z) (q : nat) :
  s <> [] ->
  (forall c, In c s -> exists y, c = Some y /\ (y == x)%Q) ->
  (2 <= q)%nat ->
  score_attempt s (l0 :: labels) q = Ok (repeat l0 (List.length s)).
Proof.
  intros Hne Hall Hq.
  assert (Hvals : forall y, In y (dropna s) -> (y == x)%Q).
  { intros y Hy. apply dropna_In in Hy. destruct (Hall _ Hy) as [y' [E Hy']].
    injection E as ->. exact Hy'. }
  assert (Hdne : dropna s <> []).
  { destruct s as [|c s']; [congruence|].
    destruct (Hall c (or_introl eq_refl)) as [y [-> _]]. discriminate. }
  assert (Hu : nunique s = 1%nat).
  { unfold nunique. apply (uniqueQ_all_equal _ x); assumption. }
  unfold score_attempt. rewrite Hu.
  replace (Nat.min q 1) with 1%nat by lia.
  replace (1 <? q)%nat with true by (symmetry; apply Nat.ltb_lt; lia).
  cbn [firstn]. unfold cut. cbn [Nat.ltb Nat.leb].
  replace (List.length s =? 0)%nat with false
    by (symmetry; apply Nat.eqb_neq; destruct s; [congruence|discriminate]).
  destruct (dropna s) as [|v0 rest] eqn:Hd; [congruence|].
  assert (Hv0 : (v0 == x)%Q) by (apply Hvals; left; reflexivity).
  assert (Hrest : forall y, In y rest -> (y == v0)%Q).
  { intros y Hy. rewrite Hv0. apply Hvals. right. exact Hy. }
  rewrite (minQ_constant v0 rest Hrest), (maxQ_constant v0 rest Hrest).
  unfold bins_to_cuts.
  assert (Hlen : List.length (nbins_to_bins v0 v0 1) = 2%nat).
  { unfold nbins_to_bins. rewrite Qeq_bool_refl. reflexivity. }
  rewrite Hlen. cbn [Nat.eqb negb]. rewrite andb_false_r.
  unfold check_labels. cbn. rewrite map_map.
  apply astype_int_constant.
  intros c Hc. destruct (Hall c Hc) as [y [-> Hy]].
  rewrite (constant_bin v0 y) by (rewrite Hy, Hv0; reflexivity).
  reflexivity.
Qed.

(** X12. A series without missing values that takes a single value gets the
    first label on every row (the helper bins it by [cut] into one bucket
    around that value), for every label list and every [q >= 2]. *)
Theorem constant_series_first_label :
  forall (s : series) (x : Q) (l0 : Z) (score_labels : list Z) (q : nat),
    s <> [] ->
    (forall c, In c s -> exists y, c = Some y /\ (y == x)%Q) ->
    (2 <= q)%nat ->
    create_rfm_score s (l0 :: score_labels) q = repeat l0 (List.length s).
Proof.
  intros s x l0 labels q Hne Hall Hq.
  apply create_rfm_score_ok. eapply constant_series_attempt; eassumption.
Qed.

Lemma constant_series_first_label_example :
  create_rfm_score [Some 6%Q; Some 6%Q; Some 6%Q] recency_scores 5 = [5; 5; 5].
Proof.
  apply (constant_series_first_label [Some 6%Q; Some 6%Q; Some 6%Q] 6%Q 5 [4; 3; 2; 1] 5).
  - discriminate.
  - intros c Hc. exists 6%Q. split; [|reflexivity].
    destruct Hc as [<-|[<-|[<-|[]]]]; reflexivity.
  - lia.
Defined.

Lemma constant_metric_column (now : Z) (data : list Transaction) (k : metric) (x : Q) :
  data <> [] ->
  (forall t, In t data -> metric_cell k (metrics_of now data t) = Some x) ->
  forall r, In r (data_scored now data) ->
            metric_score k r = hd 0 (metric_labels k).
Proof.
  intros Hne Hcell r Hr.
  pose proof (data_scored_score_In now data k r Hr) as Hin.
  assert (Hs : metric_series k (data_merged now data)
               = map (fun t => metric_cell k (metrics_of now data t)) data).
  { rewrite metric_series_cells, data_merged_rows, map_map. reflexivity. }
  assert (Hlab : metric_labels k = hd 0 (metric_labels k) :: tl (metric_labels k))
    by (destruct k; reflexivity).
  assert (Hcol : create_rfm_score (metric_series k (data_merged now data))
                   (hd 0 (metric_labels k) :: tl (metric_labels k)) 5
                 = repeat (hd 0 (metric_labels k))
                          (List.length (metric_series k (data_merged now data)))).
  { apply create_rfm_score_ok, (constant_series_attempt _ x).
    - rewrite Hs. destruct data; [congruence|discriminate].
    - intros c Hc. rewrite Hs in Hc. apply in_map_iff in Hc.
      destruct Hc as [t [<- Ht]]. exists x. split; [apply Hcell, Ht|reflexivity].
    - lia. }
  rewrite Hlab, Hcol in Hin. apply repeat_spec in Hin. exact Hin.
Qed.

(** X13. When all rows of a table belong to one customer, FrequencyScore and
    MonetaryScore are 1 on every row; when all rows carry the same
    PurchaseDate, RecencyScore is 5 on every row; and when both hold
    RFM_Score is 7 everywhere and the run ends in the exception of
    line 92. *)
Theorem one_customer_one_day :
  forall (now : Z) (data : list Transaction),
    data <> [] ->
    ((exists c, forall t, In t data -> CustomerID t = Some c) ->
     forall r, In r (data_scored now data) ->
               FrequencyScore r = 1 /\ MonetaryScore r = 1)
    /\ ((exists d, forall t, In t data -> PurchaseDate t = Some d) ->
        forall r, In r (data_scored now data) -> RecencyScore r = 5)
    /\ ((exists c, forall t, In t data -> CustomerID t = Some c) ->
        (exists d, forall t, In t data -> PurchaseDate t = Some d) ->
        rfm_analysis now data = Raise (ValueError "Bin edges must be unique")).
Proof.
  intros now data Hne.
  assert (HFM : (exists c, forall t, In t data -> CustomerID t = Some c) ->
                forall r, In r (data_scored now data) ->
                          FrequencyScore r = 1 /\ MonetaryScore r = 1).
  { intros [c Hc] r Hr. split.
    - apply (constant_metric_column now data FrequencyMetric
               (inject_Z (order_count data c)) Hne); [|exact Hr].
      intros t Ht. simpl. now rewrite (Hc t Ht).
    - apply (constant_metric_column now data MonetaryMetric
               (amount_sum data c) Hne); [|exact Hr].
      intros t Ht. simpl. now rewrite (Hc t Ht). }
  assert (HR : (exists d, forall t, In t data -> PurchaseDate t = Some d) ->
               forall r, In r (data_scored now data) -> RecencyScore r = 5).
  { intros [d Hd] r Hr.
    apply (constant_metric_column now data RecencyMetric
             (inject_Z ((now - d) / ns_per_day)) Hne); [|exact Hr].
    intros t Ht. simpl. unfold recency. now rewrite (Hd t Ht). }
  split; [exact HFM|]. split; [exact HR|].
  intros Hc Hd. unfold rfm_analysis.
  rewrite (value_segments_constant (data_scored now data) 7); [reflexivity|].
  intros r Hr.
  destruct (HFM Hc r Hr) as [HF HM]. pose proof (HR Hd r Hr) as HRr.
  unfold data_scored in Hr. apply add_scores_sum in Hr.
  rewrite Hr, HF, HM, HRr. reflexivity.
Qed.

Lemma one_customer_one_day_example :
  let data := [row "C001" 99 "O001" 10.00%Q; row "C001" 99 "O002" 25.00%Q] in
  (forall r, In r (data_scored skew_now data) ->
             FrequencyScore r = 1 /\ MonetaryScore r = 1 /\ RecencyScore r = 5)
  /\ rfm_analysis skew_now data = Raise (ValueError "Bin edges must be unique").
Proof.
  intros data.
  assert (Hne : data <> []) by discriminate.
  assert (Hc : exists c, forall t, In t data -> CustomerID t = Some c).
  { exists "C001". intros t [<-|[<-|[]]]; reflexivity. }
  assert (Hd : exists d, forall t, In t data -> PurchaseDate t = Some d).
  { exists (99 * ns_per_day). intros t [<-|[<-|[]]]; reflexivity. }
  destruct (one_customer_one_day skew_now data Hne) as [HFM [HR Habort]].
  split.
  - intros r Hr. destruct (HFM Hc r Hr) as [HF HM].
    split; [exact HF|]. split; [exact HM|exact (HR Hd r Hr)].
  - exact (Habort Hc Hd).
Defined.

(** ** The per-segment means of line 190 *)

Lemma sumZ_bounds (l : list Z) (a b : Z) :
  (forall x, In x l -> a <= x <= b) ->
  a * Z.of_nat (List.length l) <= sumZ l <= b * Z.of_nat (List.length l).
Proof.
  induction l as [|x l IH]; intros H.
  - simpl. lia.
  - assert (Hx : a <= x <= b) by (apply H; left; reflexivity).
    assert (Hl : a * Z.of_nat (List.length l) <= sumZ l <= b * Z.of_nat (List.length l)).
    { apply IH. intros y Hy. apply H. right. exact Hy. }
    change (sumZ (x :: l)) with (x + sumZ l).
    change (List.length (x :: l)) with (S (List.length l)).
    rewrite Nat2Z.inj_succ. lia.
Qed.

Lemma meanZ_bounds (l : list Z) (a b : Z) :
  l <> [] -> (forall x, In x l -> a <= x <= b) ->
  (inject_Z a <= meanZ l)%Q /\ (meanZ l <= inject_Z b)%Q.
Proof.
  intros Hne H. destruct (sumZ_bounds l a b H) as [Hlo Hhi].
  assert (Hn : (0 < inject_Z (Z.of_nat (List.length l)))%Q).
  { change 0%Q with (inject_Z 0). rewrite <- Zlt_Qlt.
    destruct l; [congruence|simpl List.length; lia]. }
  unfold meanZ. split.
  - apply Qle_shift_div_l; [exact Hn|].
    rewrite <- inject_Z_mult, <- Zle_Qle. exact Hlo.
  - apply Qle_shift_div_r; [exact Hn|].
    rewrite <- inject_Z_mult, <- Zle_Qle. exact Hhi.
Qed.

Lemma sumZ_map_add {A : Type} (f g h : A -> Z) (l : list A) :
  sumZ (map f l) + sumZ (map g l) + sumZ (map h l)
  = sumZ (map (fun a => f a + g a + h a) l).
Proof.
  induction l as [|a l IH]; [reflexivity|].
  cbn [map]. change (sumZ (?x :: ?t)) with (x + sumZ t).
  unfold sumZ in *. simpl. lia.
Qed.

Lemma meanZ_map_add {A : Type} (f g h : A -> Z) (l : list A) :
  l <> [] ->
  (meanZ (map f l) + meanZ (map g l) + meanZ (map h l)
   == meanZ (map (fun a => (f a + g a + h a)%Z) l))%Q.
Proof.
  intros Hne. unfold meanZ. rewrite <- sumZ_map_add, !length_map.
  rewrite !inject_Z_plus.
  assert (Hn : ~ (inject_Z (Z.of_nat (List.length l)) == 0)%Q).
  { change 0%Q with (inject_Z 0). rewrite inject_Z_injective.
    destruct l; [congruence|simpl List.length; lia]. }
  field. exact Hn.
Qed.

Lemma segment_of_range (s : Z) :
  (segment_of s = "Champions" /\ 9 <= s)
  \/ (segment_of s = "Potential Loyalists" /\ 6 <= s <= 8)
  \/ (segment_of s = "At Risk Customers" /\ s = 5)
  \/ (segment_of s = "Can't Lose" /\ s = 4)
  \/ (segment_of s = "Lost" /\ s <= 3).
Proof.
  unfold segment_of, relabel, segment_rules. simpl.
  destruct (Z.leb_spec 9 s), (Z.leb_spec 6 s), (Z.leb_spec 5 s), (Z.leb_spec 4 s),
    (Z.ltb_spec s 9), (Z.ltb_spec s 6), (Z.ltb_spec s 5), (Z.ltb_spec s 4);
    simpl; try lia;
    first [ left; split; [reflexivity|lia]
          | right; left; split; [reflexivity|lia]
          | right; right; left; split; [reflexivity|lia]
          | right; right; right; left; split; [reflexivity|lia]
          | right; right; right; right; split; [reflexivity|lia] ].
Qed.

Lemma segment_keys_In (out : list Segmented) (k : string) :
  In k (sort_keys (nodup string_dec (map RFM_Customer_Segments out)))
  <-> exists r, In r out /\ RFM_Customer_Segments r = k.
Proof.
  split.
  - intros H. apply (Permutation_in _ (sort_keys_perm _)), nodup_In, in_map_iff in H.
    destruct H as [r [H1 H2]]. exists r. auto.
  - intros [r [H1 H2]].
    apply (Permutation_in _ (Permutation_sym (sort_keys_perm _))), nodup_In, in_map_iff.
    exists r. auto.
Qed.

Lemma segment_rows_In (k : string) (out : list Segmented) (r : Segmented) :
  In r (segment_rows k out) <-> In r out /\ RFM_Customer_Segments r = k.
Proof.
  unfold segment_rows. rewrite filter_In. split; intros [H1 H2]; split; auto.
  - symmetry. apply String.eqb_eq, H2.
  - apply String.eqb_eq. now symmetry.
Qed.

(** X14. The table of per-segment means of line 190 has one row for each
    segment that occurs in the table and for no other, so no mean is taken
    over an empty group; each of the three means lies in 0..5, and their
    sum, which is the mean RFM_Score of the segment, lies in the band of
    the segment: 9..15 for Champions, 6..8 for Potential Loyalists, 5 for
    At Risk Customers, 4 for Can't Lose and 0..3 for Lost. *)
Theorem segment_means_stay_in_band :
  forall (now : Z) (data : list Transaction) (out : list Segmented),
    rfm_analysis now data = Ok out ->
    NoDup (map segment (segment_scores out))
    /\ (forall l, In l (map segment (segment_scores out))
                  <-> exists r, In r out /\ RFM_Customer_Segments r = l)
    /\ (forall g, In g (segment_scores out) ->
          segment_rows (segment g) out <> []
          /\ ((0 <= mean_RecencyScore g)%Q /\ (mean_RecencyScore g <= 5)%Q)
          /\ ((0 <= mean_FrequencyScore g)%Q /\ (mean_FrequencyScore g <= 5)%Q)
          /\ ((0 <= mean_MonetaryScore g)%Q /\ (mean_MonetaryScore g <= 5)%Q)
          /\ mean_in_band (segment g)
               (mean_RecencyScore g + mean_FrequencyScore g + mean_MonetaryScore g)).
Proof.
  intros now data out H.
  assert (Hkeys : map segment (segment_scores out)
                  = sort_keys (nodup string_dec (map RFM_Customer_Segments out))).
  { unfold segment_scores. rewrite map_map. simpl. apply map_id. }
  split; [|split].
  - rewrite Hkeys. eapply Permutation_NoDup;
      [apply Permutation_sym, sort_keys_perm|apply NoDup_nodup].
  - intros l. rewrite Hkeys. apply segment_keys_In.
  - intros g Hg. unfold segment_scores in Hg. apply in_map_iff in Hg.
    destruct Hg as [k [<- Hk]]. cbn [segment mean_RecencyScore mean_FrequencyScore
                                       mean_MonetaryScore].
    apply segment_keys_In in Hk. destruct Hk as [r0 [Hr0 Hk0]].
    set (g := segment_rows k out).
    assert (Hne : g <> []).
    { intros E. assert (Hin : In r0 g) by (apply segment_rows_In; auto).
      rewrite E in Hin. exact Hin. }
    assert (Hscores : forall r, In r g ->
               In (scored r) (data_scored now data)
               /\ segment_of (RFM_Score (scored r)) = k).
    { intros r Hr. apply segment_rows_In in Hr. destruct Hr as [Hr Hl]. split.
      - rewrite <- (rfm_analysis_scored now data out H). apply in_map, Hr.
      - rewrite <- (rfm_analysis_segment now data out r H Hr). exact Hl. }
    assert (Hrange : forall (m : metric) x,
               In x (map (fun r => metric_score m (scored r)) g) -> 0 <= x <= 5).
    { intros m x Hx. apply in_map_iff in Hx. destruct Hx as [r [<- Hr]].
      apply (metric_score_range now data m), (proj1 (Hscores r Hr)). }
    assert (Hmne : forall f : Segmented -> Z, map f g <> []).
    { intros f E. apply Hne. destruct g; [reflexivity|discriminate]. }
    split; [exact Hne|].
    split; [apply (meanZ_bounds _ 0 5 (Hmne _) (Hrange RecencyMetric))|].
    split; [apply (meanZ_bounds _ 0 5 (Hmne _) (Hrange FrequencyMetric))|].
    split; [apply (meanZ_bounds _ 0 5 (Hmne _) (Hrange MonetaryMetric))|].
    pose proof (meanZ_map_add (fun r => RecencyScore (scored r))
                  (fun r => FrequencyScore (scored r))
                  (fun r => MonetaryScore (scored r)) g Hne) as Hx.
    cbv beta in Hx.
    set (x := (meanZ (map (fun r => RecencyScore (scored r)) g)
               + meanZ (map (fun r => FrequencyScore (scored r)) g)
               + meanZ (map (fun r => MonetaryScore (scored r)) g))%Q) in *.
    set (m := meanZ (map _ g)) in Hx.
    assert (Hsum : forall r, In r g ->
               RecencyScore (scored r) + FrequencyScore (scored r)
               + MonetaryScore (scored r) = RFM_Score (scored r)).
    { intros r Hr. destruct (Hscores r Hr) as [Hin _].
      unfold data_scored in Hin. apply add_scores_sum in Hin. now rewrite Hin. }
    assert (Hband : forall a b,
               (forall s, segment_of s = k -> 0 <= s <= 15 -> a <= s <= b) ->
               (inject_Z a <= m)%Q /\ (m <= inject_Z b)%Q).
    { intros a b Hab. unfold m. apply meanZ_bounds; [apply Hmne|].
      intros y Hy. apply in_map_iff in Hy. destruct Hy as [r [<- Hr]].
      rewrite (Hsum r Hr). destruct (Hscores r Hr) as [Hin Hl].
      apply Hab; [exact Hl|].
      pose proof (proj1 (metric_score_range now data RecencyMetric _ Hin)).
      pose proof (proj1 (metric_score_range now data FrequencyMetric _ Hin)).
      pose proof (proj1 (metric_score_range now data MonetaryMetric _ Hin)).
      rewrite <- (Hsum r Hr). simpl in *. lia. }
    assert (Hcase : forall l a b,
               k = l ->
               (forall s, segment_of s = l -> 0 <= s <= 15 -> a <= s <= b) ->
               (inject_Z a <= x)%Q /\ (x <= inject_Z b)%Q).
    { intros l a b El Hab. rewrite Hx. apply Hband. rewrite El. exact Hab. }
    assert (Hlabel : forall s l, segment_of s = l ->
               (l = "Champions" /\ 9 <= s)
               \/ (l = "Potential Loyalists" /\ 6 <= s <= 8)
               \/ (l = "At Risk Customers" /\ s = 5)
               \/ (l = "Can't Lose" /\ s = 4)
               \/ (l = "Lost" /\ s <= 3)).
    { intros s l <-. apply segment_of_range. }
    unfold mean_in_band.
    split; [|split; [|split; [|split]]]; intros El.
    + apply (Hcase _ 9 15 El). intros s Hs Hr.
      destruct (Hlabel s _ Hs) as [[E ?]|[[E ?]|[[E ?]|[[E ?]|[E ?]]]]];
        try discriminate E; lia.
    + apply (Hcase _ 6 8 El). intros s Hs Hr.
      destruct (Hlabel s _ Hs) as [[E ?]|[[E ?]|[[E ?]|[[E ?]|[E ?]]]]];
        try discriminate E; lia.
    + apply Qle_antisym; apply (Hcase _ 5 5 El); intros s Hs Hr;
        destruct (Hlabel s _ Hs) as [[E ?]|[[E ?]|[[E ?]|[[E ?]|[E ?]]]]];
        try discriminate E; lia.
    + apply Qle_antisym; apply (Hcase _ 4 4 El); intros s Hs Hr;
        destruct (Hlabel s _ Hs) as [[E ?]|[[E ?]|[[E ?]|[[E ?]|[E ?]]]]];
        try discriminate E; lia.
    + apply (Hcase _ 0 3 El). intros s Hs Hr.
      destruct (Hlabel s _ Hs) as [[E ?]|[[E ?]|[[E ?]|[[E ?]|[E ?]]]]];
        try discriminate E; lia.
Qed.


Lemma segment_means_stay_in_band_example :
  exists out : list Segmented,
    rfm_analysis skew_now mixed_data = Ok out
    /\ map segment (segment_scores out)
       = ["At Risk Customers"; "Champions"; "Potential Loyalists"]
    /\ (forall g, In g (segment_scores out) ->
          mean_in_band (segment g)
            (mean_RecencyScore g + mean_FrequencyScore g + mean_MonetaryScore g)).
Proof.
  destruct (rfm_analysis skew_now mixed_data) as [out|e] eqn:H;
    [|exfalso; vm_compute in H; discriminate].
  exists out. split; [reflexivity|]. split.
  - clear - H. vm_compute in H. injection H as <-. vm_compute. reflexivity.
  - intros g Hg.
    destruct (proj2 (proj2 (segment_means_stay_in_band skew_now mixed_data out H)) g Hg)
      as [_ [_ [_ [_ T]]]].
    exact T.
Defined.

(** ** The tally of the value segments (line 106) *)

Lemma insert_count_perm (x : string * nat) (l : list (string * nat)) :
  Permutation (insert_count x l) (x :: l).
Proof.
  induction l as [|y t IH]; simpl.
  - apply Permutation_refl.
  - destruct (snd y <=? snd x)%nat.
    + apply Permutation_refl.
    + eapply perm_trans; [apply perm_skip, IH|apply perm_swap].
Qed.

Lemma value_counts_perm (categories : list string) (col : list (option string)) :
  Permutation (value_counts categories col)
              (map (fun l => (l, count_label l col)) categories).
Proof.
  unfold value_counts. induction categories as [|c cs IH]; simpl.
  - apply Permutation_refl.
  - eapply perm_trans; [apply insert_count_perm|apply perm_skip, IH].
Qed.

Lemma insert_count_sorted (x : string * nat) (l : list (string * nat)) :
  Sorted (fun a b => (snd b <= snd a)%nat) l ->
  Sorted (fun a b => (snd b <= snd a)%nat) (insert_count x l).
Proof.
  induction l as [|y t IH]; intros Hs; simpl.
  - constructor; constructor.
  - destruct (Nat.leb_spec (snd y) (snd x)) as [Hle|Hgt].
    + constructor; [exact Hs|]. constructor. exact Hle.
    + inversion Hs as [|? ? Ht Hhd]; subst.
      constructor; [apply IH, Ht|].
      destruct t as [|z t']; simpl.
      * constructor. lia.
      * destruct (Nat.leb_spec (snd z) (snd x)).
        -- constructor. lia.
        -- constructor. inversion Hhd; subst. assumption.
Qed.

Lemma value_counts_sorted (categories : list string) (col : list (option string)) :
  StronglySorted (fun a b => (snd b <= snd a)%nat) (value_counts categories col).
Proof.
  apply Sorted_StronglySorted.
  - intros a b c Hab Hbc. lia.
  - unfold value_counts. induction categories as [|c cs IH]; simpl.
    + constructor.
    + apply insert_count_sorted, IH.
Qed.

Lemma population_count_label (l : string) (out : list Segmented) :
  population l out = count_label l (map Value_Segment out).
Proof.
  unfold population, count_label. induction out as [|r out IH]; [reflexivity|].
  cbn [map filter]. destruct (Value_Segment r) as [l'|].
  - destruct (String.eqb l l'); cbn [List.length]; rewrite IH; reflexivity.
  - exact IH.
Qed.

Lemma sum_counts_perm (a b : list (string * nat)) :
  Permutation a b ->
  fold_right Nat.add 0%nat (map snd a) = fold_right Nat.add 0%nat (map snd b).
Proof.
  intros P. induction P; simpl; lia.
Qed.

Lemma count_labels_total (col : list (option string)) :
  (forall c, In c col -> exists l, c = Some l /\ In l segment_labels) ->
  (count_label "Low-Value" col + count_label "Mid-Value" col
   + count_label "High-Value" col)%nat = List.length col.
Proof.
  unfold count_label. induction col as [|c col IH]; intros H; [reflexivity|].
  assert (IH' := IH (fun c' Hc' => H c' (or_intror Hc'))).
  destruct (H c (or_introl eq_refl)) as [l [-> Hl]].
  unfold segment_labels in Hl.
  destruct Hl as [<-|[<-|[<-|[]]]]; cbn [filter String.eqb Ascii.eqb Bool.eqb List.length];
    cbn [filter String.eqb Ascii.eqb Bool.eqb List.length] in IH'; lia.
Qed.

(** X15. The tally behind the bar chart of line 106 has exactly one bar for
    each of Low-Value, Mid-Value and High-Value, a label without rows
    included; the count of a bar is the number of rows that carry its
    label, the bars come with the largest count first, and the counts add
    up to the number of rows of the upload: no row is left out and none is
    counted twice. *)
Theorem segment_counts_tally :
  forall (now : Z) (data : list Transaction) (out : list Segmented),
    rfm_analysis now data = Ok out ->
    Permutation (map fst (segment_counts out)) segment_labels
    /\ (forall l n, In (l, n) (segment_counts out) -> n = population l out)
    /\ StronglySorted (fun a b => (snd b <= snd a)%nat) (segment_counts out)
    /\ fold_right Nat.add 0%nat (map snd (segment_counts out)) = List.length data.
Proof.
  intros now data out H.
  pose proof (value_counts_perm segment_labels (map Value_Segment out)) as P.
  fold (segment_counts out) in P.
  split; [|split; [|split]].
  - eapply perm_trans; [apply Permutation_map, P|].
    rewrite map_map. simpl. apply Permutation_refl.
  - intros l n Hin. apply (Permutation_in _ P), in_map_iff in Hin.
    destruct Hin as [l' [E _]]. injection E as <- <-.
    symmetry. apply population_count_label.
  - apply value_counts_sorted.
  - rewrite (sum_counts_perm _ _ P), map_map. cbn [map segment_labels snd fold_right].
    rewrite Nat.add_0_r, Nat.add_assoc, count_labels_total.
    + rewrite length_map. rewrite <- (data_scored_length now data).
      rewrite <- (rfm_analysis_scored now data out H). now rewrite length_map.
    + intros c Hc. apply in_map_iff in Hc. destruct Hc as [r [<- Hr]].
      rewrite (rfm_analysis_value_segment now data out r H Hr).
      eexists. split; [reflexivity|apply tertile_label_In].
Qed.

Lemma segment_counts_tally_example :
  exists out : list Segmented,
    rfm_analysis skew_now tied_data = Ok out
    /\ segment_counts out = [("Mid-Value", 3%nat); ("Low-Value", 2%nat); ("High-Value", 1%nat)]
    /\ fold_right Nat.add 0%nat (map snd (segment_counts out)) = List.length tied_data.
Proof.
  destruct (rfm_analysis skew_now tied_data) as [out|e] eqn:H;
    [|exfalso; vm_compute in H; discriminate].
  exists out. split; [reflexivity|]. split.
  - clear - H. vm_compute in H. injection H as <-. vm_compute. reflexivity.
  - exact (proj2 (proj2 (proj2 (segment_counts_tally skew_now tied_data out H)))).
Defined.


(** ** The groups of lines 55 and 57 partition the rows *)

Lemma filter_disjoint_perm {A : Type} (p q : A -> bool) (l : list A) :
  (forall a, p a = true -> q a = false) ->
  Permutation (filter p l ++ filter q l) (filter (fun a => p a || q a) l).
Proof.
  intros D. induction l as [|a l IH]; simpl; [constructor|].
  destruct (p a) eqn:Ep; simpl.
  - rewrite (D a Ep). apply perm_skip, IH.
  - destruct (q a).
    + eapply perm_trans; [apply Permutation_sym, Permutation_middle|].
      apply perm_skip, IH.
    + exact IH.
Qed.

Lemma in_group_eq (c : string) (t : Transaction) :
  in_group c t = true <-> CustomerID t = Some c.
Proof.
  unfold in_group. destruct (CustomerID t) as [c'|].
  - rewrite String.eqb_eq. split; [intros ->; reflexivity|intros E; now injection E].
  - split; discriminate.
Qed.

Lemma groups_perm (keys : list string) (data : list Transaction) :
  NoDup keys ->
  Permutation (flat_map (fun k => group k data) keys)
              (filter (fun t => existsb (fun k => in_group k t) keys) data).
Proof.
  induction 1 as [|k ks Hk Hnd IH]; simpl.
  - induction data as [|t data IHd]; [constructor|exact IHd].
  - eapply perm_trans; [apply Permutation_app_head, IH|].
    unfold group. apply filter_disjoint_perm.
    intros t Ht. apply in_group_eq in Ht.
    destruct (existsb (fun k0 => in_group k0 t) ks) eqn:E; [|reflexivity].
    apply existsb_exists in E. destruct E as [k' [Hin Hk']].
    apply in_group_eq in Hk'. rewrite Ht in Hk'. injection Hk' as <-. contradiction.
Qed.

Lemma groups_partition (data : list Transaction) :
  Permutation (flat_map (fun k => group k data) (group_keys data)) (with_customer data).
Proof.
  eapply perm_trans; [apply groups_perm, group_keys_NoDup|].
  unfold with_customer. erewrite filter_ext_in; [apply Permutation_refl|].
  intros t Ht. cbv beta. destruct (CustomerID t) as [c|] eqn:Ec.
  - apply existsb_exists. exists c. split.
    + apply group_keys_In. exists t. auto.
    + apply in_group_eq, Ec.
  - destruct (existsb _ _) eqn:E; [|reflexivity].
    apply existsb_exists in E. destruct E as [k [_ Hk]].
    apply in_group_eq in Hk. congruence.
Qed.

Lemma dropna_app {A : Type} (a b : list (option A)) :
  dropna (a ++ b) = (dropna a ++ dropna b)%list.
Proof.
  induction a as [|[x|] a IH]; simpl; [reflexivity|now rewrite IH|exact IH].
Qed.

Lemma dropna_perm {A : Type} (a b : list (option A)) :
  Permutation a b -> Permutation (dropna a) (dropna b).
Proof.
  induction 1 as [|[x|] a b P IH|[x|] [y|] a|a b c P1 IH1 P2 IH2]; simpl;
    try apply Permutation_refl.
  - apply perm_skip, IH.
  - exact IH.
  - apply perm_swap.
  - eapply perm_trans; eassumption.
Qed.

Lemma sumQ_from (l : list Q) (a : Q) : (fold_left Qplus l a == a + sumQ l)%Q.
Proof.
  unfold sumQ. revert a. induction l as [|x l IH]; intros a; simpl.
  - lra.
  - rewrite (IH (a + x)%Q), (IH (0 + x)%Q). lra.
Qed.

Lemma sumQ_cons (x : Q) (l : list Q) : (sumQ (x :: l) == x + sumQ l)%Q.
Proof.
  unfold sumQ at 1. simpl. rewrite sumQ_from. lra.
Qed.

Lemma sumQ_app (a b : list Q) : (sumQ (a ++ b) == sumQ a + sumQ b)%Q.
Proof.
  induction a as [|x a IH]; simpl.
  - unfold sumQ at 2. simpl. lra.
  - rewrite !sumQ_cons, IH. lra.
Qed.

Lemma sumQ_perm (a b : list Q) : Permutation a b -> (sumQ a == sumQ b)%Q.
Proof.
  induction 1 as [|x a b P IH|x y a|a b c P1 IH1 P2 IH2].
  - reflexivity.
  - rewrite !sumQ_cons, IH. reflexivity.
  - rewrite !sumQ_cons. lra.
  - rewrite IH1. exact IH2.
Qed.



(** ** When the scoring helper succeeds (lines 70-80) *)

Lemma minQ_le_start (l : list Q) (m : Q) : (minQ m l <= m)%Q.
Proof.
  unfold minQ. revert m. induction l as [|y l IH]; intros m; simpl; [apply Qle_refl|].
  destruct (Qlt_bool y m) eqn:E.
  - apply Qlt_bool_iff in E. eapply Qle_trans; [apply IH|]. apply Qlt_le_weak, E.
  - apply IH.
Qed.

Lemma minQ_le_In (l : list Q) (m x : Q) : In x l -> (minQ m l <= x)%Q.
Proof.
  unfold minQ. revert m. induction l as [|y l IH]; intros m Hin; simpl; [destruct Hin|].
  destruct Hin as [->|Hin]; [|apply IH, Hin].
  eapply Qle_trans; [apply minQ_le_start|].
  destruct (Qlt_bool x m) eqn:E; [apply Qle_refl|]. apply Qlt_bool_false in E. exact E.
Qed.

Lemma maxQ_ge_start (l : list Q) (m : Q) : (m <= maxQ m l)%Q.
Proof.
  unfold maxQ. revert m. induction l as [|y l IH]; intros m; simpl; [apply Qle_refl|].
  destruct (Qlt_bool m y) eqn:E.
  - apply Qlt_bool_iff in E. eapply Qle_trans; [|apply IH]. apply Qlt_le_weak, E.
  - apply IH.
Qed.

Lemma maxQ_ge_In (l : list Q) (m x : Q) : In x l -> (x <= maxQ m l)%Q.
Proof.
  unfold maxQ. revert m. induction l as [|y l IH]; intros m Hin; simpl; [destruct Hin|].
  destruct Hin as [->|Hin]; [|apply IH, Hin].
  eapply Qle_trans; [|apply maxQ_ge_start].
  destruct (Qlt_bool m x) eqn:E; [apply Qle_refl|]. apply Qlt_bool_false in E. exact E.
Qed.

Lemma sorted_map_In {A B : Type} (R : A -> A -> Prop) (R' : B -> B -> Prop)
    (f : A -> B) (l : list A) :
  (forall x y, In x l -> In y l -> R x y -> R' (f x) (f y)) ->
  StronglySorted R l -> StronglySorted R' (map f l).
Proof.
  intros Hf Hs. induction Hs as [|x l Hs IH Hall]; simpl; constructor.
  - apply IH. intros a b Ha Hb. apply Hf; right; assumption.
  - rewrite Forall_forall in *. intros y Hy. apply in_map_iff in Hy.
    destruct Hy as [a [<- Ha]]. apply Hf; [left; reflexivity|right; exact Ha|].
    apply Hall, Ha.
Qed.

Lemma seq_sorted (len start : nat) : StronglySorted lt (seq start len).
Proof.
  revert start. induction len as [|len IH]; intros start; simpl; constructor.
  - apply IH.
  - apply Forall_forall. intros y Hy. apply in_seq in Hy. lia.
Qed.

Lemma linspace_length (a b : Q) (num : nat) : List.length (linspace a b num) = num.
Proof. unfold linspace. now rewrite length_map, length_seq. Qed.

Lemma linspace_step_pos (a b : Q) (n : nat) :
  (a < b)%Q -> (1 <= n)%nat ->
  (0 < (b - a) / inject_Z (Z.of_nat (S n) - 1))%Q.
Proof.
  intros Hab Hn. apply Qlt_shift_div_l.
  - change 0%Q with (inject_Z 0). rewrite <- Zlt_Qlt. lia.
  - lra.
Qed.

Lemma linspace_sorted (a b : Q) (n : nat) :
  (a < b)%Q -> (1 <= n)%nat -> StronglySorted Qlt (linspace a b (S n)).
Proof.
  intros Hab Hn. unfold linspace.
  apply (sorted_map_In lt); [|apply seq_sorted].
  intros i j _ _ Hij. pose proof (linspace_step_pos a b n Hab Hn) as Hd.
  set (d := ((b - a) / inject_Z (Z.of_nat (S n) - 1))%Q) in *.
  assert (Hq : (inject_Z (Z.of_nat i) < inject_Z (Z.of_nat j))%Q).
  { rewrite <- Zlt_Qlt. lia. }
  nra.
Qed.

Lemma linspace_hd (a b : Q) (n : nat) : (hd 0 (linspace a b (S n)) == a)%Q.
Proof.
  unfold linspace. cbn [seq map hd].
  set (d := ((b - a) / inject_Z (Z.of_nat (S n) - 1))%Q).
  change (inject_Z (Z.of_nat 0)) with 0%Q. ring.
Qed.

Lemma linspace_last (a b : Q) (n : nat) :
  (1 <= n)%nat -> (last (linspace a b (S n)) 0 == b)%Q.
Proof.
  intros Hn. unfold linspace. rewrite seq_S, map_app. cbn [map].
  rewrite last_last. cbn [Nat.add].
  assert (Hz : ~ (inject_Z (Z.of_nat (S n) - 1) == 0)%Q).
  { change 0%Q with (inject_Z 0). rewrite inject_Z_injective. lia. }
  replace (Z.of_nat (S n) - 1) with (Z.of_nat n) in * by lia.
  field. exact Hz.
Qed.

Lemma sorted_uniqueQ (l : list Q) : StronglySorted Qlt l -> uniqueQ l = l.
Proof.
  induction 1 as [|x l Hs IH Hall]; simpl; [reflexivity|].
  assert (Hm : memQ x l = false).
  { unfold memQ. destruct (existsb (Qeq_bool x) l) eqn:E; [|reflexivity].
    apply existsb_exists in E. destruct E as [y [Hy Hxy]].
    apply Qeq_bool_iff in Hxy. rewrite Forall_forall in Hall.
    apply Hall in Hy. lra. }
  now rewrite Hm, IH.
Qed.

Lemma strictly_increasing_sorted (l : list Q) :
  strictly_increasing l = true -> StronglySorted Qlt l.
Proof.
  intros H. apply Sorted_StronglySorted; [intros a b c; apply Qlt_trans|].
  induction l as [|x [|y t] IH]; [constructor|constructor; constructor|].
  cbn [strictly_increasing] in H. apply andb_true_iff in H. destruct H as [Hxy Ht].
  constructor; [apply IH, Ht|]. constructor. apply Qlt_bool_iff, Hxy.
Qed.

Lemma searchsorted_left_pos (b0 : Q) (rest : list Q) (x : Q) :
  (b0 < x)%Q -> (1 <= searchsorted_left (b0 :: rest) x)%nat.
Proof.
  intros H. simpl. apply Qlt_bool_iff in H. rewrite H. lia.
Qed.

Lemma searchsorted_left_last (bins : list Q) (x : Q) :
  bins <> [] -> (x <= last bins 0)%Q ->
  (searchsorted_left bins x < List.length bins)%nat.
Proof.
  induction bins as [|b t IH]; intros Hne Hx; [congruence|].
  cbn [searchsorted_left]. destruct (Qlt_bool b x) eqn:E; [|simpl; lia].
  apply Qlt_bool_iff in E. destruct t as [|b' t'].
  - simpl in Hx. lra.
  - assert (Hl : (searchsorted_left (b' :: t') x < List.length (b' :: t'))%nat).
    { apply IH; [discriminate|exact Hx]. }
    simpl List.length in *. lia.
Qed.

Lemma bin_id_in_range (bins : list Q) (il : bool) (n : nat) (v : Q) :
  List.length bins = S n -> (1 <= n)%nat ->
  (if il then (hd 0 bins <= v)%Q else (hd 0 bins < v)%Q) ->
  (v <= last bins 0)%Q ->
  exists i, bin_id bins il v = Some i /\ (1 <= i <= n)%nat.
Proof.
  intros Hlen Hn Hlo Hhi. unfold bin_id.
  destruct bins as [|b0 rest]; [discriminate|]. cbn [hd] in *.
  destruct (il && Qeq_bool v b0) eqn:E.
  - exists 1%nat. rewrite Hlen.
    replace (1 =? S n)%nat with false by (symmetry; apply Nat.eqb_neq; lia).
    simpl. split; [reflexivity|lia].
  - assert (Hlt : (b0 < v)%Q).
    { destruct il; [|exact Hlo]. simpl in E.
      destruct (Qeq_bool v b0) eqn:E'; [discriminate|].
      apply Qeq_bool_neq in E'. apply Qle_lteq in Hlo.
      destruct Hlo as [H|H]; [exact H|]. exfalso. apply E'. symmetry. exact H. }
    pose proof (searchsorted_left_pos b0 rest v Hlt) as H1.
    pose proof (searchsorted_left_last (b0 :: rest) v ltac:(discriminate) Hhi) as H2.
    set (i := searchsorted_left (b0 :: rest) v) in *.
    exists i. rewrite Hlen in *.
    replace (i =? S n)%nat with false by (symmetry; apply Nat.eqb_neq; lia).
    replace (i =? 0)%nat with false by (symmetry; apply Nat.eqb_neq; lia).
    simpl. split; [reflexivity|lia].
Qed.

Lemma NoDup_firstn (n : nat) (l : list Z) : NoDup l -> NoDup (firstn n l).
Proof.
  intros H. revert n. induction H as [|x l Hx Hnd IH]; intros [|n]; simpl;
    try constructor.
  - intros Hin. apply Hx. eapply firstn_incl, Hin.
  - apply IH.
Qed.

Lemma astype_int_some (col : list Z) : astype_int (map Some col) = Ok col.
Proof.
  induction col as [|z col IH]; simpl; [reflexivity|]. now rewrite IH.
Qed.

Lemma bins_to_cuts_total (s : series) (bins : list Q) (labels : list Z)
    (il : bool) (n : nat) :
  List.length bins = S n -> (1 <= n)%nat ->
  StronglySorted Qlt bins ->
  List.length labels = n -> NoDup labels ->
  ~ In None s ->
  (forall v, In (Some v) s ->
             (if il then (hd 0 bins <= v)%Q else (hd 0 bins < v)%Q)
             /\ (v <= last bins 0)%Q) ->
  exists col, bins_to_cuts Z.eq_dec s bins labels il = Ok (map Some col).
Proof.
  intros Hlen Hn Hs Hlab Hnd Hna Hv. unfold bins_to_cuts.
  rewrite (sorted_uniqueQ bins Hs), Nat.ltb_irrefl. cbn [andb].
  unfold check_labels.
  rewrite (nodup_fixed_point Z.eq_dec Hnd), Nat.eqb_refl. cbn [negb].
  rewrite Hlen, Hlab.
  replace (n =? S n - 1)%nat with true by (symmetry; apply Nat.eqb_eq; lia).
  cbn [negb bind].
  assert (Hcells : forall c, In c s ->
             exists z, take_label labels
                         (match c with
                          | None => None
                          | Some v => bin_id bins il v
                          end) = Some z).
  { intros [v|] Hc; [|contradiction].
    destruct (Hv v Hc) as [Hlo Hhi].
    destruct (bin_id_in_range bins il n v Hlen Hn Hlo Hhi) as [i [-> Hi]].
    cbn [take_label].
    destruct (nth_error labels (i - 1)) as [z|] eqn:E; [exists z; reflexivity|].
    apply nth_error_None in E. lia. }
  clear Hv Hna. induction s as [|c s IH].
  - exists []. reflexivity.
  - destruct IH as [col Hcol]; [intros c' Hc'; apply Hcells; right; exact Hc'|].
    destruct (Hcells c (or_introl eq_refl)) as [z Hz].
    exists (z :: col). cbn [map]. rewrite Hz. injection Hcol as Hcol.
    now rewrite Hcol.
Qed.

Lemma nbins_to_bins_spec (mn mx : Q) (n : nat) :
  (mn <= mx)%Q -> (1 <= n)%nat ->
  List.length (nbins_to_bins mn mx n) = S n
  /\ StronglySorted Qlt (nbins_to_bins mn mx n)
  /\ (hd 0 (nbins_to_bins mn mx n) < mn)%Q
  /\ (mx <= last (nbins_to_bins mn mx n) 0)%Q.
Proof.
  intros Hle Hn. unfold nbins_to_bins.
  pose proof (widen_pos mn) as Hw1. pose proof (widen_pos mx) as Hw2.
  destruct (Qeq_bool mn mx) eqn:E.
  - assert (Hab : (mn - widen mn < mx + widen mx)%Q) by lra.
    split; [apply linspace_length|]. split; [apply linspace_sorted; assumption|].
    split.
    + rewrite linspace_hd. lra.
    + rewrite (linspace_last _ _ n Hn). lra.
  - apply Qeq_bool_neq in E.
    assert (Hlt : (mn < mx)%Q).
    { apply Qle_lteq in Hle. destruct Hle as [H|H]; [exact H|contradiction]. }
    pose proof (linspace_length mn mx (S n)) as Hlen.
    pose proof (linspace_sorted mn mx n Hlt Hn) as Hs.
    pose proof (linspace_hd mn mx n) as Hhd.
    pose proof (linspace_last mn mx n Hn) as Hlast.
    destruct (linspace mn mx (S n)) as [|b0 rest]; [discriminate|].
    cbn [hd] in *.
    split; [exact Hlen|].
    inversion Hs as [|? ? Hs' Hall]; subst.
    split; [|split].
    + constructor; [exact Hs'|]. rewrite Forall_forall in *.
      intros y Hy. apply Hall in Hy. lra.
    + rewrite Hhd. lra.
    + destruct rest as [|b1 rest']; [simpl in Hlen; lia|].
      change (last (?x :: b1 :: rest') 0%Q) with (last (b1 :: rest') 0%Q) in *.
      rewrite Hlast. apply Qle_refl.
Qed.

Lemma uniqueQ_nonempty (l : list Q) : l <> [] -> (1 <= List.length (uniqueQ l))%nat.
Proof.
  induction l as [|x t IH]; intros Hne; [congruence|]. simpl.
  destruct (memQ x t) eqn:E; [|simpl; lia].
  apply IH. intros ->. discriminate E.
Qed.

Lemma dropna_present {A : Type} (s : list (option A)) :
  s <> [] -> ~ In None s -> dropna s <> [].
Proof.
  intros Hne Hna. destruct s as [|[a|] s]; [congruence|discriminate|].
  exfalso. apply Hna. left. reflexivity.
Qed.

Lemma cut_total (s : series) (labels : list Z) (n : nat) :
  s <> [] -> ~ In None s -> (1 <= n)%nat ->
  List.length labels = n -> NoDup labels ->
  exists col, cut Z.eq_dec s n labels = Ok (map Some col).
Proof.
  intros Hne Hna Hn Hlab Hnd. unfold cut.
  replace (n <? 1)%nat with false by (symmetry; apply Nat.ltb_ge; lia).
  replace (List.length s =? 0)%nat with false
    by (symmetry; apply Nat.eqb_neq; destruct s; [congruence|simpl; lia]).
  pose proof (dropna_present s Hne Hna) as Hv.
  assert (Hin : forall v, In (Some v) s -> In v (dropna s)) by (intros v; apply dropna_In).
  destruct (dropna s) as [|v0 rest]; [congruence|].
  set (mn := minQ v0 rest). set (mx := maxQ v0 rest).
  assert (Hb : forall v, In v (v0 :: rest) -> (mn <= v)%Q /\ (v <= mx)%Q).
  { intros v [<-|Hr].
    - split; [apply minQ_le_start|apply maxQ_ge_start].
    - split; [apply minQ_le_In, Hr|apply maxQ_ge_In, Hr]. }
  assert (Hmm : (mn <= mx)%Q).
  { destruct (Hb v0 (or_introl eq_refl)). lra. }
  destruct (nbins_to_bins_spec mn mx n Hmm Hn) as [Hlen [Hs [Hhd Hlast]]].
  apply (bins_to_cuts_total s _ labels false n Hlen Hn Hs Hlab Hnd Hna).
  intros v Hv'. destruct (Hb v (Hin v Hv')). split; lra.
Qed.

Lemma cut_branch_ok :
  forall (s : series) (score_labels : list Z) (q : nat),
    s <> [] -> ~ In None s ->
    (nunique s < q)%nat ->
    (nunique s <= List.length score_labels)%nat ->
    NoDup score_labels ->
    score_attempt s score_labels q = Ok (create_rfm_score s score_labels q)
    /\ (forall z, In z (create_rfm_score s score_labels q) ->
                  In z (firstn (nunique s) score_labels)).
Proof.
  intros s labels q Hne Hna Hq Hlab Hnd.
  assert (Hn : (1 <= nunique s)%nat).
  { unfold nunique. apply uniqueQ_nonempty, dropna_present; assumption. }
  assert (Hok : exists col, score_attempt s labels q = Ok col).
  { unfold score_attempt. rewrite Nat.min_r by lia.
    replace (nunique s <? q)%nat with true by (symmetry; apply Nat.ltb_lt; lia).
    destruct (cut_total s (firstn (nunique s) labels) (nunique s) Hne Hna Hn)
      as [col Hcol].
    - apply firstn_length_le, Hlab.
    - apply NoDup_firstn, Hnd.
    - exists col. rewrite Hcol. cbn [bind]. apply astype_int_some. }
  destruct Hok as [col Hcol].
  rewrite (create_rfm_score_ok s labels q col Hcol). split; [exact Hcol|].
  intros z Hz. pose proof (score_attempt_labels s labels q col z Hcol Hz) as Hin.
  rewrite Nat.min_r in Hin by lia. exact Hin.
Qed.



(** ** The quantile branch *)

Lemma quantile_edges_last (vals : list Q) (q : nat) (v : Q) :
  (1 <= q)%nat -> In v vals -> (v <= last (quantile_edges vals q) 0)%Q.
Proof.
  intros Hq Hin.
  assert (Hne : vals <> []) by (intros E; rewrite E in Hin; exact Hin).
  unfold quantile_edges, linspace. rewrite map_map, seq_S, map_app. cbn [map].
  rewrite last_last. cbn [Nat.add].
  set (p := (0 + inject_Z (Z.of_nat q) * ((1 - 0) / inject_Z (Z.of_nat (S q) - 1)))%Q).
  assert (Hp : (p == 1)%Q).
  { unfold p. replace (Z.of_nat (S q) - 1) with (Z.of_nat q) by lia.
    field. change 0%Q with (inject_Z 0). rewrite inject_Z_injective. lia. }
  eapply Qle_trans; [apply (proj2 (sortQ_bounds vals v Hin))|].
  rewrite <- (quantile_max vals Hne).
  apply quantile_mono; [exact Hne| |rewrite Hp|rewrite Hp]; unfold Qle; simpl; lia.
Qed.

Lemma quantile_edges_length (vals : list Q) (q : nat) :
  List.length (quantile_edges vals q) = S q.
Proof. unfold quantile_edges. now rewrite length_map, linspace_length. Qed.

Lemma quantile_branch_ok :
  forall (s : series) (score_labels : list Z) (q : nat),
    ~ In None s ->
    (2 <= q)%nat -> (q <= nunique s)%nat ->
    (q <= List.length score_labels)%nat ->
    NoDup score_labels ->
    strictly_increasing (quantile_edges (dropna s) q) = true ->
    score_attempt s score_labels q = Ok (create_rfm_score s score_labels q)
    /\ (forall z, In z (create_rfm_score s score_labels q) ->
                  In z (firstn q score_labels)).
Proof.
  intros s labels q Hna Hq Hu Hlab Hnd E.
  assert (Hv : dropna s <> []).
  { intros E0. unfold nunique in Hu. rewrite E0 in Hu. simpl in Hu. lia. }
  assert (Hbranch : score_attempt s labels q
                    = (binned <- bins_to_cuts Z.eq_dec s (quantile_edges (dropna s) q)
                                   (firstn q labels) true ;;
                       astype_int binned)).
  { unfold score_attempt. rewrite Nat.min_l by lia. rewrite Nat.ltb_irrefl.
    unfold qcut, quantile_edges. destruct (dropna s); [congruence|reflexivity]. }
  assert (Hok : exists col, score_attempt s labels q = Ok col).
  { destruct (bins_to_cuts_total s (quantile_edges (dropna s) q) (firstn q labels)
                true q) as [col Hcol].
    - apply quantile_edges_length.
    - lia.
    - apply strictly_increasing_sorted, E.
    - apply firstn_length_le, Hlab.
    - apply NoDup_firstn, Hnd.
    - exact Hna.
    - intros v Hin. apply dropna_In in Hin. split.
      + apply qcut_first_edge, Hin.
      + apply quantile_edges_last; [lia|exact Hin].
    - exists col. rewrite Hbranch, Hcol. cbn [bind]. apply astype_int_some. }
  destruct Hok as [col Hcol].
  rewrite (create_rfm_score_ok s labels q col Hcol). split; [exact Hcol|].
  intros z Hz. pose proof (score_attempt_labels s labels q col z Hcol Hz) as Hin.
  rewrite Nat.min_l in Hin by lia. exact Hin.
Qed.



(** ** When Recency and Frequency are scored *)

Lemma metric_labels_NoDup (k : metric) :
  NoDup (metric_labels k) /\ List.length (metric_labels k) = 5%nat.
Proof.
  split; [|destruct k; reflexivity].
  apply (proj1 (nodup_length_NoDup Z.eq_dec (metric_labels k))).
  destruct k; reflexivity.
Qed.

Lemma metric_scored (now : Z) (data : list Transaction) (k : metric) :
  (forall t, In t data -> metric_cell k (metrics_of now data t) <> None) ->
  (nunique (metric_series k (data_merged now data)) < 5)%nat
  \/ strictly_increasing
       (quantile_edges (dropna (metric_series k (data_merged now data))) 5) = true ->
  forall r, In r (data_scored now data) -> 1 <= metric_score k r <= 5.
Proof.
  intros Hcells Hcase r Hr.
  set (s := metric_series k (data_merged now data)) in *.
  destruct (metric_labels_NoDup k) as [Hnd Hlen].
  assert (Hna : ~ In None s).
  { unfold s. rewrite metric_series_cells, data_merged_rows, map_map.
    intros Hin. apply in_map_iff in Hin. destruct Hin as [t [Ht Hin]].
    exact (Hcells t Hin Ht). }
  assert (Hne : s <> []).
  { intros E. pose proof (data_scored_cell_In now data k r Hr) as Hin.
    fold s in Hin. rewrite E in Hin. exact Hin. }
  assert (Hok : exists col, score_attempt s (metric_labels k) 5 = Ok col).
  { destruct (Nat.lt_ge_cases (nunique s) 5) as [Hlt|Hge].
    - destruct (cut_branch_ok s (metric_labels k) 5 Hne Hna Hlt ltac:(lia) Hnd)
        as [H _].
      eexists. exact H.
    - destruct Hcase as [Hlt|Hinc]; [lia|].
      destruct (quantile_branch_ok s (metric_labels k) 5 Hna ltac:(lia) Hge
                  ltac:(lia) Hnd Hinc) as [H _].
      eexists. exact H. }
  destruct Hok as [col Hcol].
  exact (proj2 (metric_score_range now data k r Hr) col Hcol).
Qed.




(** ** The instant of the analysis *)

Lemma data_merged_same_days (now now' : Z) (data : list Transaction) :
  (forall t, In t data -> recency now t = recency now' t) ->
  data_merged now data = data_merged now' data.
Proof.
  intros H. rewrite !data_merged_rows. apply map_ext_in.
  intros t Ht. unfold metrics_of. now rewrite (H t Ht).
Qed.

(** X20. The instant read on line 52 matters through the whole days of
    Recency only.  Frequency, MonetaryValue and their two score columns are
    the same at every instant; and two instants that give every row the
    same Recency (two moments of one day, for purchases dated at midnight)
    give the same scored table and the same outcome of the run. *)
Theorem clock_matters_through_whole_days :
  forall (now now' : Z) (data : list Transaction),
    map Frequency (data_merged now data) = map Frequency (data_merged now' data)
    /\ map MonetaryValue (data_merged now data)
       = map MonetaryValue (data_merged now' data)
    /\ map FrequencyScore (data_scored now data)
       = map FrequencyScore (data_scored now' data)
    /\ map MonetaryScore (data_scored now data)
       = map MonetaryScore (data_scored now' data)
    /\ ((forall t, In t data -> recency now t = recency now' t) ->
        data_scored now data = data_scored now' data
        /\ rfm_analysis now data = rfm_analysis now' data).
Proof.
  intros now now' data.
  split; [rewrite !data_merged_rows, !map_map; reflexivity|].
  split; [rewrite !data_merged_rows, !map_map; reflexivity|].
  split; [|split].
  - etransitivity; [exact (data_scored_column now data FrequencyMetric)|].
    etransitivity; [|symmetry; exact (data_scored_column now' data FrequencyMetric)].
    cbn [metric_series]. now rewrite (frequency_series_any_now now),
      (frequency_series_any_now now').
  - etransitivity; [exact (data_scored_column now data MonetaryMetric)|].
    etransitivity; [|symmetry; exact (data_scored_column now' data MonetaryMetric)].
    cbn [metric_series]. now rewrite (monetary_series_any_now now),
      (monetary_series_any_now now').
  - intros H. pose proof (data_merged_same_days now now' data H) as E.
    assert (Es : data_scored now data = data_scored now' data).
    { unfold data_scored. now rewrite E. }
    split; [exact Es|]. unfold rfm_analysis. now rewrite Es.
Qed.

(** Noon and ten in the evening of day 100. *)
Lemma clock_matters_through_whole_days_example :
  rfm_analysis skew_now mixed_data
  = rfm_analysis (100 * ns_per_day + 79200000000000) mixed_data.
Proof.
  apply (proj2 (proj2 (proj2 (proj2
           (clock_matters_through_whole_days
              skew_now (100 * ns_per_day + 79200000000000) mixed_data))))).
  intros t [<-|[<-|[<-|[]]]]; vm_compute; reflexivity.
Defined.
